(** * File Organizer Pro: the classification, move and undo engine

    A shallow embedding of [src/file_sorter.py]: the extension table and
    [FileCategory.get_category], the sorting pass [action_sort] with its
    conflict loop, and [undo_sort] with its directory cleanup, over a model
    of the directory tree the program works on.

    Modelling choices, all stated where they are made:
    - a file name is a [string] of 8-bit characters; [str.lower] is the
      ASCII lowering (the table holds ASCII only);
    - a [pathlib.Path] is the list of its components; the file system is a
      finite map from paths to nodes, names compared exactly;
    - [Path.suffix] and [Path.stem] follow pathlib's rule
      [0 < i < len(name) - 1] on the last dot;
    - the order of [iterdir()] is not specified by Python: the listing is an
      argument of [action_sort];
    - what the platform may refuse beyond what the tree itself decides
      (permissions, locks) is the parameter [permitted] of [shutil_move]. *)

From Stdlib Require Import Ascii String.
From stdpp Require Import gmap strings list fin_maps pretty.

Open Scope string_scope.
Open Scope list_scope.
Open Scope nat_scope.

(** ** Strings: the pieces of [str] and [pathlib] the program uses *)

Module Str.

(** [c.lower()] on one ASCII character. *)
Definition lower_ascii (c : ascii) : ascii :=
  let n := nat_of_ascii c in
  if ((65 <=? n) && (n <=? 90))%nat then ascii_of_nat (n + 32) else c.

(** [s.lower()] *)
Fixpoint lower (s : string) : string :=
  match s with
  | EmptyString => EmptyString
  | String c r => String (lower_ascii c) (lower r)
  end.

Definition is_dot (c : ascii) : bool := Ascii.eqb c ".".

(** [s.rfind('.')], with [None] for Python's [-1]. *)
Fixpoint rfind_dot (s : string) : option nat :=
  match s with
  | EmptyString => None
  | String c r =>
      match rfind_dot r with
      | Some i => Some (S i)
      | None => if is_dot c then Some 0 else None
      end
  end.

(** [s[i:]] *)
Fixpoint drop (i : nat) (s : string) : string :=
  match i, s with
  | 0, _ => s
  | S _, EmptyString => EmptyString
  | S j, String _ r => drop j r
  end.

(** [s[:i]] *)
Fixpoint take (i : nat) (s : string) : string :=
  match i, s with
  | 0, _ => EmptyString
  | S _, EmptyString => EmptyString
  | S j, String c r => String c (take j r)
  end.

(** The index at which pathlib splits a name into stem and suffix:
    [i = name.rfind('.')] when [0 < i < len(name) - 1]. *)
Definition split_at (name : string) : option nat :=
  match rfind_dot name with
  | Some i =>
      if ((0 <? i) && (i <? String.length name - 1))%nat then Some i else None
  | None => None
  end.

(** [PurePath.suffix], on the final component. *)
Definition suffix (name : string) : string :=
  match split_at name with
  | Some i => drop i name
  | None => ""
  end.

(** [PurePath.stem], on the final component. *)
Definition stem (name : string) : string :=
  match split_at name with
  | Some i => take i name
  | None => name
  end.

(** No character of [s] is a dot. *)
Fixpoint dotless (s : string) : bool :=
  match s with
  | EmptyString => true
  | String c r => negb (is_dot c) && dotless r
  end.

(** The shape of an extension: a dot followed by at least one character,
    none of which is a dot. *)
Definition ext_shape (e : string) : bool :=
  match e with
  | String c (String d r) => is_dot c && dotless (String d r)
  | _ => false
  end.

End Str.

(** ** Paths *)

(** A [Path] is the list of its components, outermost first. *)
Abbreviation path := (list string).

(** [p / name] *)
Definition join (p : path) (name : string) : path := p ++ [name].

(** [p.parent]; the parent of the root is the root. *)
Definition parent (p : path) : path := removelast p.

(** [p.name]; empty for the root. *)
Definition name (p : path) : string := List.last p "".

(** [p.suffix] and [p.stem] *)
Definition path_suffix (p : path) : string := Str.suffix (name p).
Definition path_stem (p : path) : string := Str.stem (name p).

(** ** The classifier *)

Module FileCategory.

(** [CATEGORIES], in the order the dictionary literal gives its keys. *)
Definition CATEGORIES : list (string * list string) :=
  [ ("Documents",
      [".pdf"; ".docx"; ".doc"; ".txt"; ".rtf"; ".odt"; ".xls"; ".xlsx";
       ".ppt"; ".pptx"; ".csv"; ".md"; ".markdown"; ".tex"; ".log";
       ".pages"; ".numbers"; ".key"; ".odp"; ".ods"; ".epub"; ".djvu";
       ".mobi"; ".azw"; ".azw3"; ".fb2"; ".oxps"; ".xps"]);
    ("Images",
      [".jpg"; ".jpeg"; ".png"; ".gif"; ".bmp"; ".svg"; ".tiff"; ".webp";
       ".ico"; ".psd"; ".ai"; ".eps"; ".indd"; ".raw"; ".cr2"; ".nef";
       ".orf"; ".sr2"; ".heif"; ".heic"; ".xcf"; ".cdr"]);
    ("Videos",
      [".mp4"; ".avi"; ".mkv"; ".mov"; ".wmv"; ".flv"; ".webm"; ".m4v";
       ".mpg"; ".mpeg"; ".3gp"; ".3g2"; ".ogv"; ".vob"; ".swf"; ".m2ts";
       ".mts"; ".ts"; ".divx"; ".f4v"; ".rm"; ".rmvb"; ".ogm"]);
    ("Audio",
      [".mp3"; ".wav"; ".flac"; ".aac"; ".ogg"; ".m4a"; ".wma"; ".opus";
       ".aiff"; ".alac"; ".ape"; ".mid"; ".midi"; ".amr"; ".ac3"; ".dts";
       ".ra"; ".voc"; ".pcm"; ".dsf"; ".dff"; ".mka"; ".au"]);
    ("Archives",
      [".zip"; ".rar"; ".tar"; ".gz"; ".7z"; ".bz2"; ".xz"; ".iso"; ".tgz";
       ".tbz2"; ".txz"; ".cab"; ".deb"; ".rpm"; ".pkg"; ".dmg"; ".z";
       ".lzma"; ".lz"; ".lz4"; ".lzo"; ".zst"; ".arj"]);
    ("Code",
      [".py"; ".js"; ".html"; ".css"; ".java"; ".cpp"; ".c"; ".h"; ".php";
       ".rb"; ".go"; ".rs"; ".ts"; ".swift"; ".kt"; ".kts"; ".scala"; ".sc";
       ".dart"; ".lua"; ".pl"; ".pm"; ".sh"; ".bash"; ".ps1"; ".bat";
       ".cmd"; ".sql"; ".r"; ".jsx"; ".tsx"; ".vue"; ".elm"; ".clj"; ".ex";
       ".exs"; ".erl"; ".hrl"; ".hs"; ".lhs"; ".fs"; ".fsx"; ".ml"; ".mli";
       ".groovy"; ".cs"; ".vb"; ".xaml"; ".xml"; ".json"; ".yaml"; ".yml";
       ".toml"; ".ini"; ".config"; ".cmake"; ".make"; ".gradle"; ".m";
       ".mm"; ".f"; ".f90"; ".f95"; ".f03"; ".f08"; ".asm"; ".s";
       ".gitignore"; ".dockerignore"; ".editorconfig"]);
    ("Executables",
      [".exe"; ".msi"; ".app"; ".dmg"; ".deb"; ".rpm"; ".apk"; ".jar";
       ".war"; ".dll"; ".so"; ".dylib"; ".bin"; ".run"; ".bat"; ".cmd";
       ".com"; ".gadget"; ".vb"; ".vbs"; ".ps1"; ".msc"]);
    ("Fonts",
      [".ttf"; ".otf"; ".woff"; ".woff2"; ".eot"; ".fnt"; ".fon"; ".bdf";
       ".pfb"; ".pfm"; ".afm"; ".pfa"]);
    ("Spreadsheets",
      [".xlsx"; ".xls"; ".xlsm"; ".xlsb"; ".numbers"; ".ods"; ".csv";
       ".tsv"; ".dif"; ".sylk"; ".dbf"]);
    ("Presentations",
      [".pptx"; ".ppt"; ".pps"; ".ppsx"; ".odp"; ".key"; ".gslides"]);
    ("Databases",
      [".db"; ".sqlite"; ".sqlite3"; ".mdb"; ".accdb"; ".sql"; ".bak";
       ".dbf"; ".frm"; ".ibd"; ".myd"; ".myi"]);
    ("3D_Models",
      [".obj"; ".fbx"; ".3ds"; ".stl"; ".dae"; ".blend"; ".max"; ".ma";
       ".mb"; ".c4d"; ".lwo"; ".lws"]);
    ("CAD",
      [".dwg"; ".dxf"; ".step"; ".stp"; ".iges"; ".igs"; ".x_t"; ".x_b";
       ".sldprt"; ".sldasm"; ".ipt"; ".iam"]);
    ("Vector",
      [".svg"; ".ai"; ".eps"; ".pdf"; ".cdr"; ".afdesign"; ".sketch"]);
    ("Ebooks",
      [".epub"; ".mobi"; ".azw"; ".azw3"; ".fb2"; ".ibooks"; ".cbr"; ".cbz";
       ".pdf"]);
    ("Others", []) ].

(** [extension in extensions] *)
Definition mem (e : string) (extensions : list string) : bool :=
  bool_decide (e ∈ extensions).

(** The [for category, extensions in cls.CATEGORIES.items()] loop with its
    early [return], followed by the final [return "Others"]. *)
Fixpoint lookup_category (table : list (string * list string))
    (extension : string) : string :=
  match table with
  | [] => "Others"
  | (category, extensions) :: rest =>
      if mem extension extensions then category
      else lookup_category rest extension
  end.

(** [get_category(file_path)] *)
Definition get_category (file_path : path) : string :=
  let extension := Str.lower (path_suffix file_path) in
  lookup_category CATEGORIES extension.

(** [CATEGORIES.keys()] *)
Definition category_names : list string := CATEGORIES.*1.


End FileCategory.

(** ** The directory tree *)

(** What a path leads to: a regular file with its content, or a directory. *)
Inductive node : Type :=
  | File (content : string)
  | Dir.

Global Instance node_eq_dec : EqDecision node.
Proof. solve_decision. Defined.

(** The file system: the paths that exist, each with its node.  Links are not
    modelled, so a path is the same file as another only when they are
    equal. *)
Abbreviation FS := (gmap path node).

(** [p.exists()] *)
Definition path_exists (fs : FS) (p : path) : bool :=
  bool_decide (is_Some (fs !! p)).

(** [p.is_file()] *)
Definition is_file (fs : FS) (p : path) : bool :=
  match fs !! p with
  | Some (File _) => true
  | _ => false
  end.

(** [p.is_dir()] *)
Definition is_dir (fs : FS) (p : path) : bool :=
  match fs !! p with
  | Some Dir => true
  | _ => false
  end.

(** [p] is an entry of the directory [d]. *)
Definition is_child (d p : path) : Prop := p ≠ [] ∧ parent p = d.

Global Instance is_child_dec d p : Decision (is_child d p).
Proof. unfold is_child. apply _. Defined.

(** The entries of [d], in the order of the map; Python leaves the order of
    a listing open. *)
Definition children (fs : FS) (d : path) : list path :=
  filter (is_child d) (map_to_list fs).*1.

(** [d.iterdir()]: the entries of a directory, and an exception on anything
    else. *)
Definition iterdir (fs : FS) (d : path) : option (list path) :=
  if is_dir fs d then Some (children fs d) else None.

(** [entries] is a possible result of [d.iterdir()]. *)
Definition listing (fs : FS) (d : path) (entries : list path) : Prop :=
  entries ≡ₚ children fs d.

(** Every path that exists lies in a directory that exists (the root, the
    empty path, has no parent). *)
Definition well_formed (fs : FS) : bool :=
  forallb (λ p, bool_decide (p = []) || is_dir fs (parent p))
          (map_to_list fs).*1.

(** [p.mkdir(exist_ok=True)]: nothing to do on a directory, an exception on
    a regular file or when the parent is not a directory. *)
Definition mkdir (fs : FS) (p : path) : option FS :=
  match fs !! p with
  | Some Dir => Some fs
  | Some (File _) => None
  | None => if is_dir fs (parent p) then Some (<[p := Dir]> fs) else None
  end.

(** [d.rmdir()]: only an empty directory can be removed. *)
Definition rmdir (fs : FS) (d : path) : option FS :=
  match iterdir fs d with
  | Some [] => Some (delete d fs)
  | _ => None
  end.

(** [p] is [src] or lies below it. *)
Definition below (src p : path) : bool := bool_decide (src `prefix_of` p).

(** The tree with everything at and below [src] carried to [dst]. *)
Definition relocate (fs : FS) (src dst : path) : FS :=
  list_to_map
    (map (λ e : path * node,
            if below src e.1 then (dst ++ drop (length src) e.1, e.2) else e)
         (map_to_list fs)).

(** What the platform decides on its own, whatever the tree looks like. *)
Record Platform : Type := {
  (** whether a rename from the first path to the second is allowed
      (permissions, locks, path length) *)
  permitted : path → path → bool;
  (** the order in which a [set] of paths is iterated *)
  set_order : list path → list path
}.

(** ** The application state *)

(** The texts shown by [update_status]. *)
Inductive message : Type :=
  | Ready
  | NoDirectorySelected
  | NoFilesFound
  | ErrorMoving (file_name : string)
  | SortingComplete (total_sorted : nat)
  | NothingToUndo
  | ErrorUndoing (file_name : string)
  | ErrorRemoving (dir_name : string)
  | UndoComplete (removed_dirs : nat).

(** The fields of [FileOrganizerPro] the engine reads and writes.  The two
    dictionaries keep the order of insertion, as Python's do.  [progress]
    holds [(processed_files, total_files)], from which the bar's percentage
    is computed. *)
Record App : Type := {
  selected_directory : option path;
  last_sort_results : list (string * list path);
  undo_data : list (path * path);
  status : message;
  progress : nat * nat
}.

(** [FileOrganizerPro.__init__] and the first status text. *)
Definition init : App :=
  {| selected_directory := None; last_sort_results := []; undo_data := [];
     status := Ready; progress := (0, 0) |}.

Definition update_status (msg : message) (app : App) : App :=
  {| selected_directory := selected_directory app;
     last_sort_results := last_sort_results app;
     undo_data := undo_data app;
     status := msg;
     progress := progress app |}.

Definition update_progress (pr : nat * nat) (app : App) : App :=
  {| selected_directory := selected_directory app;
     last_sort_results := last_sort_results app;
     undo_data := undo_data app;
     status := status app;
     progress := pr |}.

Definition set_records (results : list (string * list path))
    (undo : list (path * path)) (app : App) : App :=
  {| selected_directory := selected_directory app;
     last_sort_results := results;
     undo_data := undo;
     status := status app;
     progress := progress app |}.

(** [on_directory_tree_directory_selected] *)
Definition select_directory (d : path) (app : App) : App :=
  {| selected_directory := Some d;
     last_sort_results := last_sort_results app;
     undo_data := undo_data app;
     status := status app;
     progress := progress app |}.

(** ** Dictionaries in insertion order *)

(** [d[k] = v]: the value is replaced where the key stands, a new key goes
    to the end. *)
Fixpoint dict_set {K V : Type} `{EqDecision K} (k : K) (v : V)
    (d : list (K * V)) : list (K * V) :=
  match d with
  | [] => [(k, v)]
  | (k', v') :: r =>
      if decide (k' = k) then (k, v) :: r else (k', v') :: dict_set k v r
  end.

(** [d[k].append(x)], with [None] for the [KeyError] of a missing key. *)
Fixpoint dict_append {K X : Type} `{EqDecision K} (k : K) (x : X)
    (d : list (K * list X)) : option (list (K * list X)) :=
  match d with
  | [] => None
  | (k', xs) :: r =>
      if decide (k' = k) then Some ((k', xs ++ [x]) :: r)
      else cons (k', xs) <$> dict_append k x r
  end.

(** [if k not in d: d[k] = []] followed by [d[k].append(x)]. *)
Fixpoint group_add {K X : Type} `{EqDecision K} (k : K) (x : X)
    (d : list (K * list X)) : list (K * list X) :=
  match d with
  | [] => [(k, [x])]
  | (k', xs) :: r =>
      if decide (k' = k) then (k', xs ++ [x]) :: r
      else (k', xs) :: group_add k x r
  end.

(** [s.add(x)] on a set kept as the list of its elements. *)
Definition set_add {X : Type} `{EqDecision X} (x : X) (s : list X) : list X :=
  if decide (x ∈ s) then s else s ++ [x].

(** ** How a method ends *)

Inductive outcome (A : Type) : Type :=
  | Done (a : A)      (** the method returns *)
  | Raised            (** an exception leaves the method *)
  | Unfinished.       (** a loop was cut off by its fuel *)

Arguments Done {A} a.
Arguments Raised {A}.
Arguments Unfinished {A}.

Global Instance outcome_bind : MBind outcome := λ A B k m,
  match m with
  | Done a => k a
  | Raised => Raised
  | Unfinished => Unfinished
  end.

(** [for x in l: s = step(s, x)] *)
Fixpoint for_each {S X : Type} (step : S → X → outcome S) (l : list X)
    (s : S) : outcome S :=
  match l with
  | [] => Done s
  | x :: r => s' ← step s x; for_each step r s'
  end.

(** ** The engine *)

Section Engine.

Variable os : Platform.

(** [os.rename(src, dst)] as [shutil.move] uses it, together with the copy
    and delete it falls back on: a regular file replaces a regular file at
    [dst]; a directory moves with all it holds to a free [dst] outside
    itself.  Either the whole move happens or nothing does. *)
Definition rename (fs : FS) (src dst : path) : option FS :=
  if negb (permitted os src dst) then None
  else
    match fs !! src with
    | None => None
    | Some (File c) =>
        if is_dir fs (parent dst) && negb (is_dir fs dst)
        then Some (<[dst := File c]> (delete src fs))
        else None
    | Some Dir =>
        if is_dir fs (parent dst) && negb (path_exists fs dst)
           && negb (below src dst)
        then Some (relocate fs src dst)
        else None
    end.

(** [shutil.move(src, dst)]: a destination that is a directory receives the
    source under the source's own name, unless that name is taken; [None]
    stands for the exception. *)
Definition shutil_move (fs : FS) (src dst : path) : option FS :=
  if is_dir fs dst then
    if decide (src = dst) then Some fs
    else
      let real_dst := join dst (name src) in
      if path_exists fs real_dst then None else rename fs src real_dst
  else rename fs src dst.

(** The [while new_path.exists()] loop of [action_sort]; [counter] and
    [new_path] are the loop's variables. *)
Fixpoint conflict_loop (fuel : nat) (fs : FS) (category_dir : path)
    (original_stem suffix : string) (counter : nat) (new_path : path)
    : option path :=
  if path_exists fs new_path then
    match fuel with
    | 0 => None
    | S fuel' =>
        let new_stem := original_stem +:+ "_" +:+ pretty counter in
        conflict_loop fuel' fs category_dir original_stem suffix (S counter)
          (join category_dir (new_stem +:+ suffix))
    end
  else Some new_path.

(** The destination chosen for [file_path] in [category_dir]: the lines from
    [new_path = category_dir / file_path.name] to the end of the loop.  No
    more candidates can be taken than the tree has paths. *)
Definition resolve_destination (fs : FS) (category_dir file_path : path)
    : option path :=
  conflict_loop (S (size fs)) fs category_dir (path_stem file_path)
    (path_suffix file_path) 1 (join category_dir (name file_path)).

(** The body of [for file_path in category_files].  The state is the
    application, the tree and [processed_files]. *)
Definition move_file (category : string) (category_dir : path)
    (total_files : nat) (st : App * FS * nat) (file_path : path)
    : outcome (App * FS * nat) :=
  let '(app, fs, processed_files) := st in
  if decide (parent file_path = category_dir) then Done st
  else
    match resolve_destination fs category_dir file_path with
    | None => Unfinished
    | Some new_path =>
        let '(app, fs) :=
          match shutil_move fs file_path new_path with
          | Some fs' =>
              match dict_append category new_path (last_sort_results app) with
              | Some results =>
                  (set_records results
                     (dict_set new_path file_path (undo_data app)) app, fs')
              | None =>
                  (update_status (ErrorMoving (name file_path)) app, fs')
              end
          | None => (update_status (ErrorMoving (name file_path)) app, fs)
          end in
        let processed_files := S processed_files in
        Done (update_progress (processed_files, total_files) app, fs,
              processed_files)
    end.

(** The body of [for category, category_files in files_by_category.items()]:
    the directory is made when it is missing, outside any [try]. *)
Definition sort_category (selected : path) (total_files : nat)
    (st : App * FS * nat) (group : string * list path)
    : outcome (App * FS * nat) :=
  let '(category, category_files) := group in
  match category_files with
  | [] => Done st
  | _ :: _ =>
      let '(app, fs, processed_files) := st in
      let category_dir := join selected category in
      fs ← (if path_exists fs category_dir then Done fs
            else match mkdir fs category_dir with
                 | Some fs' => Done fs'
                 | None => Raised
                 end);
      for_each (move_file category category_dir total_files) category_files
        (app, fs, processed_files)
  end.

(** The first pass: [files_by_category]. *)
Definition categorize (files : list path) : list (string * list path) :=
  foldl (λ groups file_path,
           group_add (FileCategory.get_category file_path) file_path groups)
        [] files.

(** [{category: [] for category in FileCategory.CATEGORIES.keys()}] *)
Definition empty_results : list (string * list path) :=
  map (λ category, (category, [])) FileCategory.category_names.

(** [sum(len(files) for files in self.last_sort_results.values())] *)
Definition total_sorted (results : list (string * list path)) : nat :=
  sum_list (map (λ entry, length entry.2) results).

(** [action_sort].  [entries] is what [self.selected_directory.iterdir()]
    yields. *)
Definition action_sort (app : App) (fs : FS) (entries : list path)
    : outcome (App * FS) :=
  match selected_directory app with
  | None => Done (update_status NoDirectorySelected app, fs)
  | Some selected =>
      if negb (is_dir fs selected) then Raised
      else
        let files := filter (λ f, is_file fs f = true) entries in
        match files with
        | [] => Done (update_status NoFilesFound app, fs)
        | _ :: _ =>
            let app := set_records empty_results [] app in
            let files_by_category := categorize files in
            let total_files := length files in
            '(app, fs, _) ←
              for_each (sort_category selected total_files) files_by_category
                (app, fs, 0);
            Done (update_status
                    (SortingComplete (total_sorted (last_sort_results app)))
                    app, fs)
        end
  end.

(** The body of the first loop of [undo_sort].  The state is the
    application, the tree and the set [category_dirs]. *)
Definition undo_move (total_files : nat) (st : App * FS * list path)
    (record : path * path) : App * FS * list path :=
  let '(app, fs, category_dirs) := st in
  let '(new_path, original_path) := record in
  let '(app, fs, category_dirs) :=
    if path_exists fs new_path then
      let category_dirs := set_add (parent new_path) category_dirs in
      match shutil_move fs new_path original_path with
      | Some fs' => (app, fs', category_dirs)
      | None =>
          (update_status (ErrorUndoing (name new_path)) app, fs, category_dirs)
      end
    else st in
  (update_progress (S (progress app).1, total_files) app, fs, category_dirs).

(** The first loop of [undo_sort] over the records [log], from the state
    [st]. *)
Definition undo_loop (total_files : nat) (st : App * FS * list path)
    (log : list (path * path)) : App * FS * list path :=
  foldl (undo_move total_files) st log.

(** The first loop of [undo_sort] over the whole of [self.undo_data], from
    the tree [fs] and an empty set. *)
Definition undo_moves (app : App) (fs : FS) : App * FS * list path :=
  undo_loop (length (undo_data app))
    (update_progress (0, length (undo_data app)) app, fs, []) (undo_data app).

(** The body of the second loop of [undo_sort].  The state is the
    application, the tree and [removed_dirs]. *)
Definition remove_if_empty (st : App * FS * nat) (directory : path)
    : App * FS * nat :=
  let '(app, fs, removed_dirs) := st in
  if path_exists fs directory then
    match iterdir fs directory with
    | None => (update_status (ErrorRemoving (name directory)) app, fs,
               removed_dirs)
    | Some (_ :: _) => st
    | Some [] =>
        match rmdir fs directory with
        | Some fs' => (app, fs', S removed_dirs)
        | None => (update_status (ErrorRemoving (name directory)) app, fs,
                   removed_dirs)
        end
    end
  else st.

(** The second loop of [undo_sort] over the directories in the order
    [dirs]. *)
Definition remove_empty_dirs (app : App) (fs : FS) (dirs : list path)
    : App * FS * nat :=
  foldl remove_if_empty (app, fs, 0) dirs.

(** [undo_sort] *)
Definition undo_sort (app : App) (fs : FS) : App * FS :=
  match undo_data app with
  | [] => (update_status NothingToUndo app, fs)
  | _ :: _ =>
      let '(app, fs, category_dirs) := undo_moves app fs in
      let '(app, fs, removed_dirs) :=
        remove_empty_dirs app fs (set_order os category_dirs) in
      (set_records [] [] (update_status (UndoComplete removed_dirs) app), fs)
  end.

End Engine.


(** ** Notions used to state the properties *)

(** [c] is the first category, in the order of [table], whose extensions
    hold [e], and ["Others"] when none does. *)
Definition first_match (table : list (string * list string)) (e c : string)
    : Prop :=
  (∃ before exts after,
      table = before ++ (c, exts) :: after ∧ e ∈ exts ∧
      Forall (λ entry, e ∉ entry.2) before)
  ∨ (c = "Others" ∧ Forall (λ entry, e ∉ entry.2) table).

(** The extension [e] is never the lowered suffix of a file name. *)
Definition never_matched (e : string) : Prop :=
  ∀ file_path : path, Str.lower (path_suffix file_path) ≠ e.

(** The path tried by the conflict loop when its counter is [counter]. *)
Definition candidate (category_dir file_path : path) (counter : nat) : path :=
  join category_dir
    ((path_stem file_path +:+ "_" +:+ pretty counter) +:+ path_suffix file_path).

(** A platform that refuses nothing and iterates a set in the order of
    insertion. *)
Definition plain : Platform :=
  {| permitted := λ _ _, true; set_order := λ l, l |}.

(** The directory the examples work in. *)
Definition box : path := ["box"].

(** The application once [box] has been selected. *)
Definition app_box : App := select_directory box init.

(** [box] with a report already filed under Documents and a second report
    of the same name next to it. *)
Definition report_tree : FS :=
  list_to_map
    [ ([], Dir); (box, Dir); (box ++ ["Documents"], Dir);
      (box ++ ["Documents"; "report.pdf"], File "first");
      (box ++ ["report.pdf"], File "second") ].

(** [box] with a file named like the category that a second file belongs
    to. *)
Definition audio_tree : FS :=
  list_to_map
    [ ([], Dir); (box, Dir);
      (box ++ ["01-intro.mp3"], File "intro");
      (box ++ ["Audio"], File "notes") ].

Definition documents_tree : FS :=
  list_to_map
    [ ([], Dir); (box, Dir);
      (box ++ ["Documents"], File "list");
      (box ++ ["report.pdf"], File "report") ].

(** A platform that refuses every rename. *)
Definition locked : Platform :=
  {| permitted := λ _ _, false; set_order := λ l, l |}.

(** The tree a state of the loops carries. *)
Definition tree_of {X : Type} (st : App * FS * X) : FS := st.1.2.

(** The application and the tree as [action_sort] leaves them (as they were,
    should it not return). *)
Definition sorted (os : Platform) (app : App) (fs : FS) (entries : list path)
    : App * FS :=
  match action_sort os app fs entries with
  | Done r => r
  | _ => (app, fs)
  end.

(** What holds between two steps of [action_sort] in the directory
    [selected], started on the tree [fs0] with the regular files [files]:
    [pending] are the files not handled yet. *)
Record sort_inv (selected : path) (fs0 : FS) (files pending : list path)
    (app : App) (fs : FS) (processed_files : nat) : Prop := {
  inv_selected : is_dir fs selected = true;
  inv_pending : ∀ f, f ∈ pending → fs !! f = fs0 !! f;
  inv_pending_files : ∀ f, f ∈ pending → f ∈ files;
  inv_pending_nodup : NoDup pending;
  inv_keys : FileCategory.category_names = (last_sort_results app).*1;
  inv_record : ∀ new_path original,
    (new_path, original) ∈ undo_data app →
    original ∈ files ∧ (original ∉ pending) ∧
    fs !! new_path = fs0 !! original ∧
    parent new_path = join selected (FileCategory.get_category original);
  inv_destinations : NoDup (undo_data app).*1;
  inv_originals : NoDup (undo_data app).*2;
  inv_results : concat (last_sort_results app).*2 ≡ₚ (undo_data app).*1;
  inv_failed : ∀ f,
    f ∈ files → f ∉ pending → f ∉ (undo_data app).*2 → fs !! f = fs0 !! f;
  inv_moved : ∀ f, f ∈ (undo_data app).*2 → is_file fs f = false;
  inv_dirs : ∀ d,
    fs !! d = Some Dir →
    fs0 !! d = Some Dir ∨
    ∃ f, f ∈ files ∧ d = join selected (FileCategory.get_category f);
  inv_files : ∀ p x,
    fs !! p = Some (File x) →
    fs0 !! p = Some (File x) ∨
    ∃ original, (p, original) ∈ undo_data app ∧
                fs0 !! original = Some (File x);
  inv_count : processed_files + length pending = length files;
  inv_progress :
    processed_files ≠ 0 → progress app = (processed_files, length files);
  inv_app : selected_directory app = Some selected;
  inv_persist : ∀ p y, fs0 !! p = Some y → p ∉ files → fs !! p = Some y;
  inv_fresh : ∀ new_path original,
    (new_path, original) ∈ undo_data app → fs0 !! new_path = None
}.

(** ** The results screen *)

(** What [SortingResults.compose] yields, in order; the containers only
    group the labels and are left out. *)
Inductive widget : Type :=
  | Header
  | ResultsTitle
  | ResultsSummary (total_files : nat)
  | CategoryTitle (category : string) (count : nat)
  | FileItem (file_name : string)
  | FileItemMore (more : nat)
  | BackButton
  | Footer.

(** The container of one category: nothing for a category without files,
    else its title, the names of its first five files and, beyond five, the
    number of those left out. *)
Definition category_container (entry : string * list path) : list widget :=
  let '(category, files) := entry in
  match files with
  | [] => []
  | _ :: _ =>
      CategoryTitle category (length files)
      :: map (λ file, FileItem (name file)) (take 5 files)
      ++ (if 5 <? length files then [FileItemMore (length files - 5)] else [])
  end.

(** [SortingResults.compose] *)
Definition compose (results : list (string * list path)) : list widget :=
  [Header; ResultsTitle; ResultsSummary (total_sorted results)]
  ++ concat (map category_container results)
  ++ [BackButton; Footer].



(** The files a list of widgets names, and the files it only counts. *)
Definition named_files (widgets : list widget) : nat :=
  sum_list (map (λ w, match w with FileItem _ => 1 | _ => 0 end) widgets).

Definition counted_files (widgets : list widget) : nat :=
  sum_list (map (λ w, match w with FileItemMore n => n | _ => 0 end) widgets).

(** Where [action_sort] files [file_path] when nothing stands in its way. *)
Definition destination (selected file_path : path) : path :=
  join (join selected (FileCategory.get_category file_path)) (name file_path).

(** [d.get(k)] *)
Fixpoint dict_get {K V : Type} `{EqDecision K} (k : K) (d : list (K * V))
    : option V :=
  match d with
  | [] => None
  | (k', v) :: r => if decide (k' = k) then Some v else dict_get k r
  end.

(** [box] with one document, one image, one sound file and one file of no
    known kind. *)
Definition scenario_tree : FS :=
  list_to_map
    [ ([], Dir); (box, Dir);
      (box ++ ["a.pdf"], File "pdf"); (box ++ ["b.jpg"], File "jpg");
      (box ++ ["c.mp3"], File "mp3"); (box ++ ["d.xyz"], File "xyz") ].

(** * Properties *)

(** ** Strings *)

Lemma is_dot_spec c : Str.is_dot c = true ↔ c = "."%char.
Proof. apply Ascii.eqb_eq. Qed.

Lemma is_dot_lower c : Str.is_dot (Str.lower_ascii c) = Str.is_dot c.
Proof. by destruct c as [[] [] [] [] [] [] [] []]. Qed.

Lemma dotless_lower s : Str.dotless (Str.lower s) = Str.dotless s.
Proof. induction s as [|c s IH]; simpl; [done|]. by rewrite is_dot_lower, IH. Qed.

Lemma ext_shape_lower e : Str.ext_shape (Str.lower e) = Str.ext_shape e.
Proof.
  destruct e as [|c [|d r]]; simpl; try done.
  by rewrite !is_dot_lower, dotless_lower.
Qed.

Lemma rfind_dot_dotless s : Str.dotless s = true → Str.rfind_dot s = None.
Proof.
  induction s as [|c s IH]; simpl; [done|].
  intros [Hc Hs]%andb_prop. rewrite (IH Hs).
  by destruct (Str.is_dot c).
Qed.

Lemma append_nil s : "" +:+ s = s.
Proof. reflexivity. Qed.

Lemma append_cons c x s : String c x +:+ s = String c (x +:+ s).
Proof. reflexivity. Qed.

Lemma rfind_dot_app x s :
  Str.rfind_dot (x +:+ s) =
  match Str.rfind_dot s with
  | Some i => Some (String.length x + i)
  | None => Str.rfind_dot x
  end.
Proof.
  induction x as [|c x IH].
  - rewrite append_nil. by destruct (Str.rfind_dot s).
  - rewrite append_cons. simpl. rewrite IH. by destruct (Str.rfind_dot s).
Qed.

Lemma string_length_app x s :
  String.length (x +:+ s) = String.length x + String.length s.
Proof.
  induction x as [|c x IH]; [done|]. rewrite append_cons. simpl. by rewrite IH.
Qed.

Lemma drop_app x s : Str.drop (String.length x) (x +:+ s) = s.
Proof.
  induction x as [|c x IH]; [by destruct s|]. by rewrite append_cons.
Qed.

Lemma take_app x s : Str.take (String.length x) (x +:+ s) = x.
Proof.
  induction x as [|c x IH]; [done|]. rewrite append_cons. simpl. by rewrite IH.
Qed.

Lemma take_drop i s : Str.take i s +:+ Str.drop i s = s.
Proof.
  revert s; induction i as [|i IH]; intros [|c s]; simpl; try done.
  by rewrite append_cons, IH.
Qed.

(** A name is its stem followed by its suffix. *)
Lemma stem_suffix n : Str.stem n +:+ Str.suffix n = n.
Proof.
  unfold Str.stem, Str.suffix. destruct (Str.split_at n).
  - apply take_drop.
  - induction n as [|c n IH]; [done|]. by rewrite append_cons, IH.
Qed.

Lemma ext_shape_inv e :
  Str.ext_shape e = true →
  ∃ r, e = String "." r ∧ r ≠ "" ∧ Str.dotless r = true.
Proof.
  destruct e as [|c [|d r]]; try done. simpl.
  intros [Hc Hr]%andb_prop. apply is_dot_spec in Hc as ->.
  by exists (String d r).
Qed.

(** Where pathlib splits a non-empty stem followed by an extension. *)
Lemma split_at_ext x e :
  x ≠ "" → Str.ext_shape e = true →
  Str.split_at (x +:+ e) = Some (String.length x).
Proof.
  intros Hx (r & -> & Hr & Hd)%ext_shape_inv.
  unfold Str.split_at. rewrite rfind_dot_app. simpl.
  rewrite (rfind_dot_dotless _ Hd). simpl.
  rewrite string_length_app. simpl.
  assert (0 < String.length x) by (destruct x; [done|simpl; lia]).
  assert (0 < String.length r) by (destruct r; [done|simpl; lia]).
  rewrite Nat.add_0_r.
  replace (0 <? String.length x)%nat with true
    by (symmetry; apply Nat.ltb_lt; lia).
  replace (String.length x <? String.length x + S (String.length r) - 1)%nat
    with true by (symmetry; apply Nat.ltb_lt; lia).
  done.
Qed.

Lemma suffix_ext x e :
  x ≠ "" → Str.ext_shape e = true → Str.suffix (x +:+ e) = e.
Proof.
  intros Hx He. unfold Str.suffix.
  rewrite (split_at_ext _ _ Hx He). apply drop_app.
Qed.

Lemma stem_ext x e :
  x ≠ "" → Str.ext_shape e = true → Str.stem (x +:+ e) = x.
Proof.
  intros Hx He. unfold Str.stem.
  rewrite (split_at_ext _ _ Hx He). apply take_app.
Qed.

(** A name made of one leading dot and no other dot has no suffix. *)
Lemma suffix_dotfile r : Str.dotless r = true → Str.suffix (String "." r) = "".
Proof.
  intros Hr. unfold Str.suffix, Str.split_at. simpl.
  by rewrite (rfind_dot_dotless _ Hr).
Qed.

(** ** Paths *)

Lemma name_join p n : name (join p n) = n.
Proof. unfold name, join. apply last_last. Qed.

Lemma parent_join p n : parent (join p n) = p.
Proof. unfold parent, join. apply removelast_last. Qed.

Lemma join_inj p q n m : join p n = join q m → p = q ∧ n = m.
Proof. unfold join. intros H. by apply app_inj_tail in H. Qed.

Lemma join_ne_nil p n : join p n ≠ [].
Proof. unfold join. by destruct p. Qed.

Lemma join_ne_self p n : join p n ≠ p.
Proof.
  unfold join. intros H. apply (f_equal length) in H.
  rewrite length_app in H. simpl in H. lia.
Qed.

Lemma is_child_join d p : is_child d p ↔ ∃ n, p = join d n.
Proof.
  unfold is_child, parent, join. split.
  - intros [Hp <-]. exists (List.last p "").
    by apply app_removelast_last.
  - intros [n ->]. split; [by destruct d|apply removelast_last].
Qed.

(** ** The classifier *)

Lemma table_ext_shape :
  Forall (λ entry : string * list string,
            Forall (λ e, Str.ext_shape e = true) entry.2)
         FileCategory.CATEGORIES.
Proof. repeat (constructor; [repeat constructor|]). constructor. Qed.

Lemma mem_spec e extensions :
  FileCategory.mem e extensions = true ↔ e ∈ extensions.
Proof. unfold FileCategory.mem. apply bool_decide_eq_true. Qed.


Lemma first_match_lookup_category table e c :
  first_match table e c → FileCategory.lookup_category table e = c.
Proof.
  intros [(before & exts & after & -> & Hin & Hb)|[-> Hall]].
  - induction Hb as [|[c' exts'] before Hne _ IH]; simpl.
    + apply mem_spec in Hin. by rewrite Hin.
    + simpl in Hne. destruct (FileCategory.mem e exts') eqn:Hm; [|done].
      by apply mem_spec in Hm.
  - induction Hall as [|[c' exts'] table Hne _ IH]; simpl; [done|].
    simpl in Hne. destruct (FileCategory.mem e exts') eqn:Hm; [|done].
    by apply mem_spec in Hm.
Qed.


Lemma category_is_name table e :
  FileCategory.lookup_category table e ∈ table.*1 ∨
  FileCategory.lookup_category table e = "Others".
Proof.
  induction table as [|[c exts] table IH]; simpl; [by right|].
  destruct (FileCategory.mem e exts).
  - left. apply elem_of_cons. by left.
  - destruct IH as [IH|IH]; [left|by right]. apply elem_of_cons. by right.
Qed.

(** Every category [get_category] returns is a key of the table, so that
    [last_sort_results[category]] never misses. *)
Lemma get_category_name file_path :
  FileCategory.get_category file_path ∈ FileCategory.category_names.
Proof.
  unfold FileCategory.get_category, FileCategory.category_names.
  destruct (category_is_name FileCategory.CATEGORIES
              (Str.lower (path_suffix file_path))) as [H| ->]; [done|].
  vm_compute. repeat (first [by left|right]).
Qed.

(** The suffix of a name with a non-empty stem before an extension, in any
    letter case, lowers to the extension. *)
Lemma lower_suffix_ext dir x e e' :
  x ≠ "" → Str.ext_shape e = true → Str.lower e' = e →
  Str.lower (path_suffix (join dir (x +:+ e'))) = e.
Proof.
  intros Hx He Hl. unfold path_suffix. rewrite name_join.
  rewrite suffix_ext; [done..|]. by rewrite <-ext_shape_lower, Hl.
Qed.




(** C10, as amended: a name made of one leading dot and no other dot has an
    empty suffix and is put in "Others", although ".gitignore" stands in the
    table of Code; no entry of the table is matched by the file whose whole
    name is that entry, while a name with a non-empty stem before
    ".gitignore" is matched by it. *)
Theorem dotfile_is_other :
  (∀ dir r,
      Str.dotless r = true →
      path_suffix (join dir (String "." r)) = "" ∧
      FileCategory.get_category (join dir (String "." r)) = "Others")
  ∧ (∃ exts, ("Code", exts) ∈ FileCategory.CATEGORIES ∧ ".gitignore" ∈ exts)
  ∧ (∀ dir c exts e,
      (c, exts) ∈ FileCategory.CATEGORIES → e ∈ exts →
      FileCategory.get_category (join dir e) = "Others")
  ∧ (∀ dir x,
      x ≠ "" →
      FileCategory.get_category (join dir (x +:+ ".gitignore")) = "Code").
Proof.
  assert (∀ dir r, Str.dotless r = true →
            path_suffix (join dir (String "." r)) = "" ∧
            FileCategory.get_category (join dir (String "." r)) = "Others")
    as Hdot.
  { intros dir r Hr. unfold FileCategory.get_category, path_suffix.
    rewrite name_join, (suffix_dotfile _ Hr). done. }
  split; [exact Hdot|]. split; [|split].
  - eexists. split; [do 5 right; left|]. repeat (first [by left|right]).
  - intros dir c exts e Hin He.
    pose proof table_ext_shape as Ht.
    rewrite Forall_forall in Ht. specialize (Ht _ Hin). simpl in Ht.
    rewrite Forall_forall in Ht.
    destruct (ext_shape_inv e (Ht _ He)) as (r & -> & _ & Hr).
    by apply Hdot.
  - intros dir x Hx. unfold FileCategory.get_category.
    by rewrite (lower_suffix_ext dir x ".gitignore" ".gitignore" Hx).
Qed.

Lemma dotfile_is_other_witness :
  Str.dotless "gitignore" = true ∧ "notes" ≠ "" ∧
  FileCategory.get_category (join box ".gitignore") = "Others" ∧
  FileCategory.get_category (join box "notes.gitignore") = "Code".
Proof.
  split; [reflexivity|]. split; [done|]. split.
  - apply (proj1 dotfile_is_other box "gitignore"). reflexivity.
  - apply (proj2 (proj2 (proj2 dotfile_is_other)) box "notes"). done.
Defined.

(** C10 as it was stated fails in its last clause: the entry ".gitignore"
    is matched by a name that has a stem before it. *)
Lemma gitignore_entry_matched : ¬ never_matched ".gitignore".
Proof. intros H. by apply (H (join box "notes.gitignore")). Qed.

(** ** The conflict loop *)

Lemma append_inj_r a b s : a +:+ s = b +:+ s → a = b.
Proof.
  intros H.
  assert (String.length a = String.length b) as Hlen.
  { apply (f_equal String.length) in H. rewrite !string_length_app in H. lia. }
  revert b H Hlen. induction a as [|c a IH]; intros [|d b] H Hlen; try done.
  rewrite !append_cons in H. injection H as -> H. f_equal. apply IH; [done|].
  simpl in Hlen. lia.
Qed.

Lemma append_inj_l s a b : s +:+ a = s +:+ b → a = b.
Proof.
  induction s as [|c s IH]; [done|]. rewrite !append_cons. intros [= H]. auto.
Qed.

Lemma candidate_inj category_dir file_path j k :
  candidate category_dir file_path j = candidate category_dir file_path k →
  j = k.
Proof.
  unfold candidate. intros [_ H]%join_inj.
  apply append_inj_r, append_inj_l, append_inj_l in H.
  by apply (inj pretty) in H.
Qed.

Lemma path_exists_spec fs p : path_exists fs p = true ↔ is_Some (fs !! p).
Proof. unfold path_exists. apply bool_decide_eq_true. Qed.

Lemma path_exists_false fs p : path_exists fs p = false ↔ fs !! p = None.
Proof.
  unfold path_exists. rewrite bool_decide_eq_false.
  by rewrite eq_None_not_Some.
Qed.

(** No more distinct paths exist than the tree has entries. *)
Lemma existing_paths_bound (fs : FS) (l : list path) :
  NoDup l → (∀ p, p ∈ l → path_exists fs p = true) → length l ≤ size fs.
Proof.
  intros Hnd Hex. rewrite <-size_dom. unfold size, set_size. simpl.
  apply submseteq_length, NoDup_submseteq; [done|].
  intros p Hp. apply elem_of_elements, elem_of_dom.
  by apply path_exists_spec, Hex.
Qed.

Section Loop.

Variables (fs : FS) (category_dir file_path : path).

Let cand := candidate category_dir file_path.
Let loop fuel := conflict_loop fuel fs category_dir (path_stem file_path)
                  (path_suffix file_path).

Lemma conflict_loop_exhausted fuel k new_path :
  loop fuel k new_path = None →
  path_exists fs new_path = true ∧
  ∀ j, k ≤ j < k + fuel → path_exists fs (cand j) = true.
Proof.
  subst loop cand. revert k new_path.
  induction fuel as [|fuel IH]; intros k new_path; simpl.
  - destruct (path_exists fs new_path); [|done]. intros _. split; [done|lia].
  - destruct (path_exists fs new_path) eqn:He; [|done].
    intros [Hk Hrest]%IH. split; [done|]. intros j Hj.
    destruct (decide (j = k)) as [->|]; [exact Hk|]. apply Hrest. lia.
Qed.

Lemma conflict_loop_found fuel k new_path p :
  loop fuel k new_path = Some p →
  path_exists fs p = false ∧
  (p = new_path ∨
   path_exists fs new_path = true ∧
   ∃ j, k ≤ j ∧ p = cand j ∧
        ∀ i, k ≤ i < j → path_exists fs (cand i) = true).
Proof.
  subst loop cand. revert k new_path.
  induction fuel as [|fuel IH]; intros k new_path; simpl.
  - destruct (path_exists fs new_path) eqn:He; [done|].
    intros [= <-]. auto.
  - destruct (path_exists fs new_path) eqn:He; [|intros [= <-]; auto].
    intros [Hp Hq]%IH. split; [done|]. right. split; [done|].
    destruct Hq as [->|(Hk & j & Hj & -> & Hall)].
    + exists k. split; [lia|]. split; [done|]. intros i Hi. lia.
    + exists j. split; [lia|]. split; [done|]. intros i Hi.
      destruct (decide (i = k)) as [->|]; [exact Hk|]. apply Hall. lia.
Qed.

Lemma conflict_loop_enough fuel k new_path :
  size fs < fuel → is_Some (loop fuel k new_path).
Proof.
  intros Hfuel. destruct (loop fuel k new_path) eqn:Hl; [by eexists|].
  apply conflict_loop_exhausted in Hl as [_ Hall].
  assert (length (map cand (seq k fuel)) ≤ size fs) as Hlen.
  { apply existing_paths_bound.
    - apply NoDup_fmap_2; [|apply NoDup_seq].
      intros i j. apply candidate_inj.
    - intros p (j & -> & Hj)%list_elem_of_fmap.
      apply Hall. apply elem_of_seq in Hj. lia. }
  rewrite length_map, length_seq in Hlen. lia.
Qed.

End Loop.

Lemma resolve_destination_spec fs category_dir file_path :
  ∃ new_path,
    resolve_destination fs category_dir file_path = Some new_path ∧
    path_exists fs new_path = false ∧
    (new_path = join category_dir (name file_path) ∨
     path_exists fs (join category_dir (name file_path)) = true ∧
     ∃ k, 1 ≤ k ∧ new_path = candidate category_dir file_path k ∧
          ∀ i, 1 ≤ i < k →
               path_exists fs (candidate category_dir file_path i) = true).
Proof.
  unfold resolve_destination.
  destruct (conflict_loop_enough fs category_dir file_path (S (size fs)) 1
              (join category_dir (name file_path))) as [p Hp]; [lia|].
  exists p. split; [done|]. by apply conflict_loop_found in Hp.
Qed.

Lemma conflict_loop_more_fuel fs category_dir file_path fuel fuel' k new_path p :
  conflict_loop fuel fs category_dir (path_stem file_path)
    (path_suffix file_path) k new_path = Some p →
  fuel ≤ fuel' →
  conflict_loop fuel' fs category_dir (path_stem file_path)
    (path_suffix file_path) k new_path = Some p.
Proof.
  revert fuel' k new_path.
  induction fuel as [|fuel IH]; intros fuel' k new_path; simpl.
  - destruct (path_exists fs new_path) eqn:He; [done|].
    intros [= <-] _. destruct fuel'; simpl; by rewrite He.
  - destruct (path_exists fs new_path) eqn:He.
    + intros Hl Hle. destruct fuel' as [|fuel']; [lia|]. simpl. rewrite He.
      apply IH; [done|lia].
    + intros [= <-] _. destruct fuel'; simpl; by rewrite He.
Qed.

(** C5: the conflict loop ends, and the path it ends on does not exist: it
    is the wanted name when that is free, and otherwise the first of
    stem_1, stem_2, ... (before the suffix) that is free.  With report.pdf
    already filed under Documents, a second report.pdf is filed as
    report_1.pdf, and a third as report_2.pdf. *)
Theorem resolve_destination_free :
  (∀ fs category_dir file_path,
    ∃ new_path,
      resolve_destination fs category_dir file_path = Some new_path ∧
      (∀ fuel, size fs < fuel →
         conflict_loop fuel fs category_dir (path_stem file_path)
           (path_suffix file_path) 1 (join category_dir (name file_path))
         = Some new_path) ∧
      path_exists fs new_path = false ∧
      (new_path = join category_dir (name file_path) ∨
       path_exists fs (join category_dir (name file_path)) = true ∧
       ∃ k, 1 ≤ k ∧ new_path = candidate category_dir file_path k ∧
            ∀ i, 1 ≤ i < k →
                 path_exists fs (candidate category_dir file_path i) = true))
  ∧ candidate (box ++ ["Documents"]) (box ++ ["report.pdf"]) 1
    = box ++ ["Documents"; "report_1.pdf"]
  ∧ match action_sort plain app_box report_tree (children report_tree box) with
    | Done (app, fs) =>
        fs !! (box ++ ["Documents"; "report.pdf"]) = Some (File "first") ∧
        fs !! (box ++ ["Documents"; "report_1.pdf"]) = Some (File "second") ∧
        fs !! (box ++ ["report.pdf"]) = None ∧
        let fs3 := <[box ++ ["report.pdf"] := File "third"]> fs in
        match action_sort plain app fs3 (children fs3 box) with
        | Done (_, fs') =>
            fs' !! (box ++ ["Documents"; "report.pdf"]) = Some (File "first") ∧
            fs' !! (box ++ ["Documents"; "report_1.pdf"])
              = Some (File "second") ∧
            fs' !! (box ++ ["Documents"; "report_2.pdf"])
              = Some (File "third") ∧
            fs' !! (box ++ ["report.pdf"]) = None
        | _ => False
        end
    | _ => False
    end.
Proof.
  split; [|split; [reflexivity|vm_compute; repeat split; reflexivity]].
  intros fs category_dir file_path.
  destruct (resolve_destination_spec fs category_dir file_path)
    as (p & Hp & Hfree & Hwhich).
  exists p. split; [done|]. split; [|done].
  intros fuel Hfuel.
  apply (conflict_loop_more_fuel _ _ _ (S (size fs))); [exact Hp|lia].
Qed.

(** ** The tree *)

Lemma is_file_spec fs p : is_file fs p = true ↔ ∃ x, fs !! p = Some (File x).
Proof.
  unfold is_file. destruct (fs !! p) as [[x|]|]; split; try done.
  - by exists x.
  - by intros [x ?].
  - by intros [x ?].
Qed.

Lemma is_dir_spec fs p : is_dir fs p = true ↔ fs !! p = Some Dir.
Proof. unfold is_dir. by destruct (fs !! p) as [[x|]|]. Qed.

Lemma mkdir_fresh fs p fs' :
  fs !! p = None → mkdir fs p = Some fs' → fs' = <[p := Dir]> fs.
Proof.
  unfold mkdir. intros ->. destruct (is_dir fs (parent p)); congruence.
Qed.

Lemma mkdir_child fs d n :
  is_dir fs d = true → fs !! join d n = None → is_Some (mkdir fs (join d n)).
Proof.
  unfold mkdir. intros Hd ->. rewrite parent_join, Hd. by eexists.
Qed.

Section Moves.

Variable os : Platform.

(** A regular file moved to a free path arrives there, and leaves. *)
Lemma shutil_move_file fs src dst x fs' :
  fs !! src = Some (File x) → fs !! dst = None →
  shutil_move os fs src dst = Some fs' →
  fs' = <[dst := File x]> (delete src fs).
Proof.
  intros Hsrc Hdst. unfold shutil_move, is_dir. rewrite Hdst.
  unfold rename. destruct (negb (permitted os src dst)); [done|].
  rewrite Hsrc. unfold is_dir. rewrite Hdst.
  destruct (fs !! parent dst) as [[?|]|]; simpl; congruence.
Qed.

End Moves.

(** ** Dictionaries *)

Lemma dict_set_fresh {K V} `{EqDecision K} (k : K) (v : V) d :
  k ∉ d.*1 → dict_set k v d = d ++ [(k, v)].
Proof.
  induction d as [|[k' v'] d IH]; simpl; [done|].
  intros [Hne Hd]%not_elem_of_cons.
  destruct (decide (k' = k)); [congruence|]. by rewrite IH.
Qed.

Lemma dict_append_key {K X} `{EqDecision K} (k : K) (x : X) d :
  k ∈ d.*1 →
  ∃ d', dict_append k x d = Some d' ∧ d'.*1 = d.*1 ∧
        concat d'.*2 ≡ₚ x :: concat d.*2.
Proof.
  induction d as [|[k' xs] d IH]; simpl; [by intros ?%elem_of_nil|].
  intros Hk. destruct (decide (k' = k)) as [->|Hne].
  - eexists. split; [done|]. split; [done|]. simpl.
    rewrite <-app_assoc. simpl. by rewrite <-Permutation_middle.
  - apply elem_of_cons in Hk as [->|Hk]; [done|].
    destruct (IH Hk) as (d' & -> & Hkeys & Hperm).
    eexists. split; [done|]. split; [simpl; by f_equal|].
    simpl. rewrite Hperm. by rewrite <-Permutation_middle.
Qed.

Lemma group_add_concat {K X} `{EqDecision K} (k : K) (x : X) d :
  concat (group_add k x d).*2 ≡ₚ x :: concat d.*2.
Proof.
  induction d as [|[k' xs] d IH]; simpl; [done|].
  destruct (decide (k' = k)); simpl.
  - rewrite <-app_assoc. simpl. by rewrite <-Permutation_middle.
  - rewrite IH. by rewrite <-Permutation_middle.
Qed.

Lemma group_add_keyed {K X} `{EqDecision K} (key : X → K) (x : X) d :
  Forall (λ g : K * list X, g.2 ≠ [] ∧ ∀ y, y ∈ g.2 → key y = g.1) d →
  Forall (λ g : K * list X, g.2 ≠ [] ∧ ∀ y, y ∈ g.2 → key y = g.1)
         (group_add (key x) x d).
Proof.
  induction 1 as [|[k' xs] d [Hne Hk] Hd IH]; simpl.
  - constructor; [|constructor]. simpl. split; [done|].
    by intros y ->%list_elem_of_singleton.
  - destruct (decide (k' = key x)) as [->|].
    + constructor; [|done]. simpl. split; [by destruct xs|].
      intros y [Hy| ->%list_elem_of_singleton]%elem_of_app; [|done].
      by apply Hk.
    + constructor; [|done]. by split.
Qed.

Lemma categorize_spec files :
  concat (categorize files).*2 ≡ₚ files ∧
  Forall (λ g : string * list path,
            g.2 ≠ [] ∧ ∀ f, f ∈ g.2 → FileCategory.get_category f = g.1)
         (categorize files).
Proof.
  unfold categorize.
  assert (∀ groups : list (string * list path),
    Forall (λ g : string * list path,
              g.2 ≠ [] ∧ ∀ f, f ∈ g.2 → FileCategory.get_category f = g.1)
           groups →
    let r := foldl (λ groups file_path,
                      group_add (FileCategory.get_category file_path)
                        file_path groups) groups files in
    concat r.*2 ≡ₚ concat groups.*2 ++ files ∧
    Forall (λ g : string * list path,
              g.2 ≠ [] ∧ ∀ f, f ∈ g.2 → FileCategory.get_category f = g.1)
           r) as Hgen.
  { induction files as [|f files IH]; intros groups Hg; simpl.
    - by rewrite app_nil_r.
    - destruct (IH (group_add (FileCategory.get_category f) f groups))
        as [Hperm Hall].
      { by apply (group_add_keyed FileCategory.get_category). }
      split; [|done]. rewrite Hperm, group_add_concat.
      by rewrite <-Permutation_middle. }
  destruct (Hgen []) as [Hperm Hall]; [constructor|]. by split.
Qed.

(** ** Loops *)

Lemma for_each_cons {S X} (step : S → X → outcome S) x r s :
  for_each step (x :: r) s = step s x ≫= for_each step r.
Proof. reflexivity. Qed.

Lemma bind_done {A B} (a : A) (k : A → outcome B) : Done a ≫= k = k a.
Proof. reflexivity. Qed.

(** Names for the parts of [sort_inv]. *)
Ltac inv_fields H :=
  destruct H as [Isel Ipend Ipfiles Ipnodup Ikeys Irec Idst Isrc Ires Ifail
                 Imoved Idirs Ifiles Icount Iprog Iapp Ipersist Ifresh].

(** ** One pass of [action_sort] *)

Section SortSteps.

Variables (os : Platform) (selected : path) (fs0 : FS) (files : list path).

Hypothesis files_regular : ∀ f, f ∈ files → is_file fs0 f = true.
Hypothesis files_inside : ∀ f, f ∈ files → parent f = selected.

Let inv := sort_inv selected fs0 files.

(** Making the directory of a category keeps what holds between steps. *)
Lemma mkdir_inv pending app fs n f :
  inv pending app fs n → f ∈ files →
  path_exists fs (join selected (FileCategory.get_category f)) = false →
  ∃ fs', mkdir fs (join selected (FileCategory.get_category f)) = Some fs' ∧
         inv pending app fs' n.
Proof.
  set (d := join selected (FileCategory.get_category f)).
  intros Hinv Hf Hfree%path_exists_false. inv_fields Hinv.
  destruct (mkdir_child fs selected (FileCategory.get_category f))
    as [fs' Hfs']; [done..|].
  exists fs'. split; [done|].
  apply mkdir_fresh in Hfs' as ->; [|done]. fold d.
  assert (∀ p, is_Some (fs !! p) → <[d := Dir]> fs !! p = fs !! p) as Hsame.
  { intros p [y Hp]. apply lookup_insert_ne. congruence. }
  assert (∀ g, g ∈ files → is_Some (fs0 !! g)) as Hreg.
  { intros g [x Hx]%files_regular%is_file_spec. by eexists. }
  constructor; try done.
  - apply is_dir_spec. rewrite Hsame; [by apply is_dir_spec|].
    apply is_dir_spec in Isel. by eexists.
  - intros g Hg. rewrite Hsame; [by apply Ipend|].
    rewrite Ipend by done. by apply Hreg, Ipfiles.
  - intros np op Hrec.
    destruct (Irec np op Hrec) as (Hop & Hnp & Hlook & Hpar).
    repeat split; try done. rewrite Hsame; [done|]. rewrite Hlook.
    by apply Hreg.
  - intros g Hg Hp Hu. rewrite Hsame; [by apply Ifail|].
    rewrite Ifail by done. by apply Hreg.
  - intros g Hg. specialize (Imoved g Hg). unfold is_file in *.
    destruct (decide (g = d)) as [->|Hne].
    + by rewrite lookup_insert_eq.
    + by rewrite lookup_insert_ne.
  - intros p Hp. destruct (decide (p = d)) as [->|Hne].
    + right. by exists f.
    + rewrite lookup_insert_ne in Hp by done. by apply Idirs.
  - intros p x Hp. destruct (decide (p = d)) as [->|Hne].
    + by rewrite lookup_insert_eq in Hp.
    + rewrite lookup_insert_ne in Hp by done. by apply Ifiles.
  - intros p y Hp Hnot. rewrite Hsame; by erewrite Ipersist.
Qed.

Lemma parent_ne_category f category :
  f ∈ files → parent f ≠ join selected category.
Proof. intros ->%files_inside. intros H. symmetry in H. by apply join_ne_self in H. Qed.

(** Handling one file keeps what holds between steps, whether its move
    succeeds or fails, and the loop goes on. *)
Lemma move_file_inv pending app fs n f :
  inv (f :: pending) app fs n →
  ∃ app' fs',
    move_file os (FileCategory.get_category f)
      (join selected (FileCategory.get_category f)) (length files)
      (app, fs, n) f = Done (app', fs', S n) ∧
    inv pending app' fs' (S n).
Proof.
  set (c := FileCategory.get_category f). set (d := join selected c).
  intros Hinv. inv_fields Hinv.
  assert (f ∈ files) as Hf by (apply Ipfiles; by left).
  assert (∀ g, g ∈ files → ∃ x, fs0 !! g = Some (File x)) as Hreg.
  { intros g Hg. by apply is_file_spec, files_regular. }
  destruct (Hreg f Hf) as [x Hx0].
  assert (fs !! f = Some (File x)) as Hx.
  { rewrite Ipend; [done|by left]. }
  apply NoDup_cons in Ipnodup as [Hfresh Hnodup].
  unfold move_file. destruct (decide (parent f = d)) as [Heq|_].
  { by apply parent_ne_category in Heq. }
  destruct (resolve_destination_spec fs d f) as (np & -> & Hfree & Hwhich).
  apply path_exists_false in Hfree.
  assert (parent np = d) as Hpar.
  { destruct Hwhich as [->|(_ & k & _ & -> & _)]; apply parent_join. }
  assert (np ≠ f) as Hnpf by congruence.
  assert (∀ g, g ∈ files → g ≠ np) as Hout.
  { intros g Hg ->. by apply (parent_ne_category np c) in Hg. }
  assert (np ∉ (undo_data app).*1) as Hnew.
  { intros ([np' op] & -> & Hin)%list_elem_of_fmap. simpl in *.
    destruct (Irec _ _ Hin) as (Hop & _ & Hlook & _).
    destruct (Hreg op Hop) as [z Hz]. congruence. }
  assert (f ∉ (undo_data app).*2) as Hnew2.
  { intros ([np' op] & -> & Hin)%list_elem_of_fmap. simpl in *.
    destruct (Irec _ _ Hin) as (_ & Hnot & _). apply Hnot. by left. }
  destruct (shutil_move os fs f np) as [fs'|] eqn:Hmove.
  - apply (shutil_move_file os fs f np x) in Hmove as ->; [|done..].
    destruct (dict_append_key c np (last_sort_results app))
      as (results & -> & Hkeys & Hperm).
    { rewrite <-Ikeys. apply get_category_name. }
    eexists _, _. split; [done|].
    assert (∀ p, p ≠ np → p ≠ f →
              <[np := File x]> (delete f fs) !! p = fs !! p) as Hsame.
    { intros p ? ?. by rewrite lookup_insert_ne, lookup_delete_ne. }
    constructor; simpl.
    + apply is_dir_spec. apply is_dir_spec in Isel.
      rewrite Hsame; [done|congruence..].
    + intros g Hg. rewrite Hsame.
      * apply Ipend. by right.
      * apply Hout, Ipfiles. by right.
      * intros ->. done.
    + intros g Hg. apply Ipfiles. by right.
    + done.
    + by rewrite Hkeys.
    + intros np' op. rewrite (dict_set_fresh _ _ _ Hnew).
      intros [Hin|[= -> ->]%list_elem_of_singleton]%elem_of_app.
      * destruct (Irec _ _ Hin) as (Hop & Hnot & Hlook & Hpar').
        split; [done|]. split; [by intros ?; apply Hnot; right|].
        split; [|done]. rewrite Hsame; [done| |].
        -- destruct (Hreg op Hop) as [z Hz]. congruence.
        -- intros ->. by apply (parent_ne_category f
                                  (FileCategory.get_category op)) in Hf.
      * split; [done|]. split; [done|]. split; [|done].
        by rewrite lookup_insert_eq.
    + rewrite (dict_set_fresh _ _ _ Hnew), fmap_app. simpl.
      apply NoDup_app. split; [done|]. split; [|apply NoDup_singleton].
      intros p Hp ->%list_elem_of_singleton. done.
    + rewrite (dict_set_fresh _ _ _ Hnew), fmap_app. simpl.
      apply NoDup_app. split; [done|]. split; [|apply NoDup_singleton].
      intros p Hp ->%list_elem_of_singleton. done.
    + rewrite (dict_set_fresh _ _ _ Hnew), fmap_app. simpl.
      rewrite Hperm, Ires. by rewrite <-Permutation_cons_append.
    + intros g Hg Hp. rewrite (dict_set_fresh _ _ _ Hnew), fmap_app. simpl.
      intros [Hu Hgf%not_elem_of_cons]%not_elem_of_app.
      destruct Hgf as [Hgf _]. rewrite Hsame; [|by apply Hout|done].
      apply Ifail; [done| |done].
      intros [->|?]%elem_of_cons; done.
    + intros g. rewrite (dict_set_fresh _ _ _ Hnew), fmap_app. simpl.
      intros [Hg| ->%list_elem_of_singleton]%elem_of_app.
      * assert (g ∈ files) as Hgf.
        { apply list_elem_of_fmap in Hg as ([np' op] & -> & Hin).
          by destruct (Irec _ _ Hin). }
        unfold is_file. rewrite lookup_insert_ne by (intros ->; by eapply Hout).
        destruct (decide (g = f)) as [->|]; [by rewrite lookup_delete_eq|].
        rewrite lookup_delete_ne by done. by apply Imoved.
      * unfold is_file.
        by rewrite lookup_insert_ne, lookup_delete_eq.
    + intros p Hp. destruct (decide (p = np)) as [->|Hne].
      { by rewrite lookup_insert_eq in Hp. }
      rewrite lookup_insert_ne in Hp by done.
      destruct (decide (p = f)) as [->|Hne'].
      { by rewrite lookup_delete_eq in Hp. }
      rewrite lookup_delete_ne in Hp by done. by apply Idirs.
    + intros p y Hp. rewrite (dict_set_fresh _ _ _ Hnew).
      destruct (decide (p = np)) as [->|Hne].
      { rewrite lookup_insert_eq in Hp. injection Hp as <-.
        right. exists f. split; [|done]. apply elem_of_app. right. by left. }
      rewrite lookup_insert_ne in Hp by done.
      destruct (decide (p = f)) as [->|Hne'].
      { by rewrite lookup_delete_eq in Hp. }
      rewrite lookup_delete_ne in Hp by done.
      destruct (Ifiles _ _ Hp) as [?|(op & Hin & Hop)]; [by left|].
      right. exists op. split; [|done]. apply elem_of_app. by left.
    + simpl in Icount. lia.
    + done.
    + done.
    + intros p y Hp Hnot. specialize (Ipersist p y Hp Hnot).
      rewrite Hsame; [done|congruence|]. intros ->. done.
    + intros np' op. rewrite (dict_set_fresh _ _ _ Hnew).
      intros [Hin|[= -> ->]%list_elem_of_singleton]%elem_of_app.
      * by eapply Ifresh.
      * destruct (fs0 !! np) as [y|] eqn:Hy; [|done].
        assert (np ∉ files) as Hnot by (intros ?; by eapply Hout).
        specialize (Ipersist np y Hy Hnot). congruence.
  - eexists _, _. split; [done|]. constructor; simpl; try done.
    + intros g Hg. apply Ipend. by right.
    + intros g Hg. apply Ipfiles. by right.
    + intros np' op Hin.
      destruct (Irec _ _ Hin) as (Hop & Hnot & Hlook & Hpar').
      split; [done|]. split; [by intros ?; apply Hnot; right|]. done.
    + intros g Hg Hp Hu. destruct (decide (g = f)) as [->|Hne].
      * apply Ipend. by left.
      * apply Ifail; [done| |done].
        intros [->|?]%elem_of_cons; done.
    + simpl in Icount. lia.
Qed.

(** The inner loop, over the files of one category. *)
Lemma move_files_inv category category_files pending app fs n :
  (∀ f, f ∈ category_files → FileCategory.get_category f = category) →
  inv (category_files ++ pending) app fs n →
  ∃ app' fs',
    for_each (move_file os category (join selected category) (length files))
      category_files (app, fs, n)
    = Done (app', fs', n + length category_files) ∧
    inv pending app' fs' (n + length category_files).
Proof.
  revert app fs n.
  induction category_files as [|f l IH]; intros app fs n Hcat Hinv.
  - exists app, fs. simpl. by rewrite Nat.add_0_r.
  - destruct (move_file_inv _ _ _ _ _ Hinv) as (app1 & fs1 & Hstep & Hinv1).
    rewrite (Hcat f) in Hstep by (by left).
    rewrite for_each_cons, Hstep, bind_done. simpl length.
    destruct (IH app1 fs1 (S n)) as (app2 & fs2 & Hrest & Hinv2); [|done|].
    { intros g Hg. apply Hcat. by right. }
    exists app2, fs2. replace (n + S (length l)) with (S n + length l) by lia.
    done.
Qed.

(** The body of the outer loop: the directory of the category is made when
    it is missing, and cannot fail to be. *)
Lemma sort_category_inv category category_files pending app fs n :
  category_files ≠ [] →
  (∀ f, f ∈ category_files → FileCategory.get_category f = category) →
  inv (category_files ++ pending) app fs n →
  ∃ app' fs',
    sort_category os selected (length files) (app, fs, n)
      (category, category_files)
    = Done (app', fs', n + length category_files) ∧
    inv pending app' fs' (n + length category_files).
Proof.
  intros Hne Hcat Hinv. unfold sort_category.
  destruct category_files as [|f l] eqn:Hl; [done|]. rewrite <-Hl in *.
  assert (f ∈ category_files) as Hf by (rewrite Hl; by left).
  assert (f ∈ files) as Hff.
  { apply (inv_pending_files _ _ _ _ _ _ _ Hinv), elem_of_app. by left. }
  destruct (path_exists fs (join selected category)) eqn:He.
  - rewrite bind_done. by apply move_files_inv.
  - rewrite <-(Hcat f Hf) in He.
    destruct (mkdir_inv _ _ _ _ f Hinv Hff He) as (fs1 & Hmk & Hinv1).
    rewrite (Hcat f Hf) in Hmk. rewrite Hmk, bind_done.
    by apply move_files_inv.
Qed.

(** The outer loop, over the categories that have files. *)
Lemma sort_categories_inv groups app fs n :
  Forall (λ g : string * list path,
            g.2 ≠ [] ∧ ∀ f, f ∈ g.2 → FileCategory.get_category f = g.1)
         groups →
  inv (concat groups.*2) app fs n →
  ∃ app' fs',
    for_each (sort_category os selected (length files)) groups (app, fs, n)
    = Done (app', fs', n + length (concat groups.*2)) ∧
    inv [] app' fs' (n + length (concat groups.*2)).
Proof.
  intros Hall. revert app fs n.
  induction Hall as [|[c l] groups [Hne Hcat] _ IH]; intros app fs n Hinv.
  - simpl. exists app, fs. by rewrite Nat.add_0_r.
  - simpl in Hne, Hcat, Hinv.
    destruct (sort_category_inv c l _ _ _ _ Hne Hcat Hinv)
      as (app1 & fs1 & Hstep & Hinv1).
    rewrite for_each_cons, Hstep, bind_done.
    destruct (IH _ _ _ Hinv1) as (app2 & fs2 & Hrest & Hinv2).
    exists app2, fs2. simpl concat. rewrite length_app, Nat.add_assoc. done.
Qed.

End SortSteps.

(** ** Listings *)

Lemma elem_of_children fs d p :
  p ∈ children fs d ↔ is_child d p ∧ is_Some (fs !! p).
Proof.
  unfold children. rewrite list_elem_of_filter, list_elem_of_fmap.
  split.
  - intros [Hc ([q y] & -> & Hin%elem_of_map_to_list)]. split; [done|].
    by eexists.
  - intros [Hc [y Hy]]. split; [done|]. exists (p, y).
    split; [done|]. by apply elem_of_map_to_list.
Qed.

Lemma NoDup_children fs d : NoDup (children fs d).
Proof. apply NoDup_filter, NoDup_fst_map_to_list. Qed.

Lemma listing_NoDup fs d entries : listing fs d entries → NoDup entries.
Proof. intros ->. apply NoDup_children. Qed.

Lemma elem_of_listing fs d entries p :
  listing fs d entries → p ∈ entries ↔ is_child d p ∧ is_Some (fs !! p).
Proof. intros ->. apply elem_of_children. Qed.

Lemma total_sorted_length results :
  total_sorted results = length (concat results.*2).
Proof.
  unfold total_sorted. induction results as [|[c l] r IH]; simpl; [done|].
  by rewrite length_app, IH.
Qed.

(** ** The whole of [action_sort] *)

(** On a directory that holds regular files, [action_sort] returns, and what
    holds between its steps holds at its end with no file pending. *)
Lemma action_sort_inv os app fs entries selected :
  selected_directory app = Some selected →
  is_dir fs selected = true →
  listing fs selected entries →
  filter (λ f, is_file fs f = true) entries ≠ [] →
  ∃ app' fs',
    action_sort os app fs entries = Done (app', fs') ∧
    sort_inv selected fs (filter (λ f, is_file fs f = true) entries) []
      app' fs' (length (filter (λ f, is_file fs f = true) entries)) ∧
    status app' = SortingComplete (length (undo_data app')).
Proof.
  intros Hsel Hdir Hlist Hne. unfold action_sort. rewrite Hsel, Hdir. simpl.
  set (files := filter (λ f, is_file fs f = true) entries) in *.
  destruct files as [|f0 l0] eqn:Hfiles; [done|]. rewrite <-Hfiles. clear Hne.
  assert (NoDup files) as Hnd.
  { apply NoDup_filter. by eapply listing_NoDup. }
  assert (∀ f, f ∈ files → is_file fs f = true) as Hreg.
  { by intros f [? _]%list_elem_of_filter. }
  assert (∀ f, f ∈ files → parent f = selected) as Hin.
  { intros f [_ Hf]%list_elem_of_filter.
    apply (elem_of_listing _ _ _ _ Hlist) in Hf as [[_ Hp] _]. done. }
  destruct (categorize_spec files) as [Hperm Hgroups].
  destruct (sort_categories_inv os selected fs files Hreg Hin
              (categorize files) (set_records empty_results [] app) fs 0
              Hgroups) as (app2 & fs2 & Hrun & Hinv).
  { constructor; simpl; try done.
    - intros f Hf. by rewrite <-Hperm.
    - by rewrite Hperm.
    - intros ?? ?%elem_of_nil. done.
    - constructor.
    - constructor.
    - intros f ?%elem_of_nil. done.
    - by left.
    - by left.
    - by rewrite Hperm.
    - intros ?? ?%elem_of_nil. done. }
  rewrite Hperm in Hrun, Hinv. simpl in Hrun, Hinv.
  rewrite Hrun, bind_done.
  eexists _, _. split; [done|]. inv_fields Hinv. split.
  - constructor; done.
  - simpl. f_equal. rewrite total_sorted_length, Ires.
    by rewrite length_fmap.
Qed.

(** ** What a sort guarantees *)




Lemma listing_children fs d : listing fs d (children fs d).
Proof. unfold listing. reflexivity. Qed.






(** C2, as amended: when the first sort has moved every regular file that
    was listed, a second sort straight after it finds no file to sort: it
    returns with the tree, [last_sort_results] and [undo_data] as the first
    sort left them. *)
Theorem sort_twice_unchanged os app fs entries selected app1 fs1 entries' :
  selected_directory app = Some selected →
  is_dir fs selected = true →
  listing fs selected entries →
  action_sort os app fs entries = Done (app1, fs1) →
  (∀ f, f ∈ entries → is_file fs f = true → f ∈ (undo_data app1).*2) →
  listing fs1 selected entries' →
  ∃ app2,
    action_sort os app1 fs1 entries' = Done (app2, fs1) ∧
    last_sort_results app2 = last_sort_results app1 ∧
    undo_data app2 = undo_data app1 ∧
    status app2 = NoFilesFound.
Proof.
  intros Hsel Hdir Hlist Hrun Hall Hlist'.
  assert (selected_directory app1 = Some selected ∧
          is_dir fs1 selected = true ∧
          filter (λ f, is_file fs1 f = true) entries' = [])
    as (Hsel1 & Hdir1 & Hnone).
  { destruct (filter (λ f, is_file fs f = true) entries) as [|f0 l0]
      eqn:Hfiles.
    - unfold action_sort in Hrun. rewrite Hsel, Hdir, Hfiles in Hrun.
      simpl in Hrun. injection Hrun as <- <-.
      split; [done|]. split; [done|].
      apply Permutation_nil_r. unfold listing in Hlist, Hlist'.
      by rewrite Hlist', <-Hlist, Hfiles.
    - destruct (action_sort_inv os app fs entries selected Hsel Hdir Hlist)
        as (app' & fs' & Hrun' & Hinv & Hstatus); [by rewrite Hfiles|].
      rewrite Hrun in Hrun'. injection Hrun' as <- <-.
      inv_fields Hinv. split; [done|]. split; [done|].
      destruct (filter (λ f, is_file fs1 f = true) entries') as [|p l]
        eqn:Hleft; [done|].
      assert (p ∈ filter (λ f, is_file fs1 f = true) entries') as Hp
        by (rewrite Hleft; by left).
      apply list_elem_of_filter in Hp as [Hreg Hp].
      apply (elem_of_listing _ _ _ p Hlist') in Hp as [Hchild Hsome].
      pose proof Hreg as [x Hx]%is_file_spec.
      destruct (Ifiles p x Hx) as [H0|(op & Hin & _)].
      + assert (p ∈ entries) as Hpe.
        { apply (elem_of_listing _ _ _ p Hlist). split; [done|by eexists]. }
        assert (is_file fs p = true) as Hreg0
          by (apply is_file_spec; by eexists).
        specialize (Imoved p (Hall p Hpe Hreg0)). congruence.
      + destruct (Irec _ _ Hin) as (_ & _ & _ & Hpar).
        destruct Hchild as [_ Hc]. rewrite Hc in Hpar.
        symmetry in Hpar. by apply join_ne_self in Hpar. }
  exists (update_status NoFilesFound app1).
  unfold action_sort. rewrite Hsel1, Hdir1, Hnone. done.
Qed.

Lemma sort_twice_unchanged_witness :
  ∃ app2,
    action_sort plain
      (sorted plain app_box report_tree (children report_tree box)).1
      (sorted plain app_box report_tree (children report_tree box)).2
      (children (sorted plain app_box report_tree
                   (children report_tree box)).2 box)
    = Done (app2,
            (sorted plain app_box report_tree (children report_tree box)).2) ∧
    last_sort_results app2
    = last_sort_results
        (sorted plain app_box report_tree (children report_tree box)).1.
Proof.
  set (r := sorted plain app_box report_tree (children report_tree box)).
  assert (∀ f, f ∈ children report_tree box →
               is_file report_tree f = true → f ∈ (undo_data r.1).*2)
    as Hall.
  { intros f Hf Hreg. vm_compute in Hf.
    apply elem_of_cons in Hf as [->|Hf];
      [vm_compute in Hreg; discriminate Hreg|].
    apply elem_of_cons in Hf as [->|Hf]; [vm_compute; left|].
    apply elem_of_nil in Hf. destruct Hf. }
  assert (action_sort plain app_box report_tree (children report_tree box)
          = Done (r.1, r.2)) as Hrun.
  { destruct (action_sort_inv plain app_box report_tree
                (children report_tree box) box eq_refl eq_refl
                (listing_children _ _)) as (app' & fs' & Hrun & _).
    - vm_compute. discriminate.
    - subst r. unfold sorted. rewrite Hrun. reflexivity. }
  destruct (sort_twice_unchanged plain app_box report_tree
              (children report_tree box) box r.1 r.2 (children r.2 box)
              eq_refl eq_refl (listing_children _ _) Hrun Hall
              (listing_children _ _))
    as (app2 & Hrun2 & Hres & _).
  exists app2. split; [exact Hrun2|exact Hres].
Defined.

(** ** Sorting, then undoing or sorting again *)

(** C1: the round trip fails on a flat directory that holds a file named
    like a category folder.  With "Documents" listed before "report.pdf",
    the sort files "Documents" under Others and then makes the folder
    Documents for the report; the undo, sending "Documents" back to its
    path, finds a directory there and drops the file inside it, so that the
    folder is not empty and stays. *)
Theorem sort_undo_misplaces_file :
  well_formed documents_tree = true ∧
  listing documents_tree box [box ++ ["Documents"]; box ++ ["report.pdf"]] ∧
  documents_tree !! (box ++ ["Documents"]) = Some (File "list") ∧
  match action_sort plain app_box documents_tree
          [box ++ ["Documents"]; box ++ ["report.pdf"]] with
  | Done (app1, fs1) =>
      fs1 !! (box ++ ["Others"; "Documents"]) = Some (File "list") ∧
      fs1 !! (box ++ ["Documents"; "report.pdf"]) = Some (File "report") ∧
      undo_data app1
      = [(box ++ ["Others"; "Documents"], box ++ ["Documents"]);
         (box ++ ["Documents"; "report.pdf"], box ++ ["report.pdf"])] ∧
      undo_data (undo_sort plain app1 fs1).1 = [] ∧
      status (undo_sort plain app1 fs1).1 = UndoComplete 1 ∧
      (undo_sort plain app1 fs1).2 !! (box ++ ["report.pdf"])
      = Some (File "report") ∧
      (undo_sort plain app1 fs1).2 !! (box ++ ["Others"]) = None ∧
      (undo_sort plain app1 fs1).2 !! (box ++ ["Documents"]) = Some Dir ∧
      (undo_sort plain app1 fs1).2 !! (box ++ ["Documents"; "Documents"])
      = Some (File "list")
  | _ => False
  end.
Proof.
  split; [reflexivity|]. split; [|split; [reflexivity|]].
  - unfold listing. vm_compute. reflexivity.
  - vm_compute. repeat split; reflexivity.
Qed.

(** C2 as it was stated fails when the first sort leaves a file behind:
    "01-intro.mp3" cannot enter the folder Audio while a file of that name
    stands in its place; the first sort files "Audio" under Others, and the
    second sort then moves "01-intro.mp3" and starts its records afresh. *)
Lemma sort_twice_differs :
  ¬ (∀ os app fs entries selected app1 fs1 entries',
       selected_directory app = Some selected →
       is_dir fs selected = true →
       listing fs selected entries →
       action_sort os app fs entries = Done (app1, fs1) →
       listing fs1 selected entries' →
       ∃ app2,
         action_sort os app1 fs1 entries' = Done (app2, fs1) ∧
         last_sort_results app2 = last_sort_results app1).
Proof.
  intros H.
  set (entries := [box ++ ["01-intro.mp3"]; box ++ ["Audio"]]).
  set (r := sorted plain app_box audio_tree entries).
  assert (listing audio_tree box entries) as Hlist
    by (unfold listing; vm_compute; apply perm_swap).
  assert (action_sort plain app_box audio_tree entries = Done (r.1, r.2))
    as Hrun.
  { destruct (action_sort_inv plain app_box audio_tree entries box
                eq_refl eq_refl Hlist) as (app' & fs' & Hrun & _).
    - vm_compute. discriminate.
    - subst r. unfold sorted. rewrite Hrun. reflexivity. }
  destruct (H plain app_box audio_tree entries box r.1 r.2 (children r.2 box)
              eq_refl eq_refl Hlist Hrun (listing_children _ _))
    as (app2 & Hrun2 & _).
  clear H Hrun Hlist.
  apply (f_equal (λ o : outcome (App * FS),
                    match o with
                    | Done (_, fs) => fs !! (box ++ ["01-intro.mp3"])
                    | _ => None
                    end)) in Hrun2.
  vm_compute in Hrun2. discriminate Hrun2.
Qed.

(** ** Undo *)

Lemma undo_sort_log os app fs : undo_data (undo_sort os app fs).1 = [].
Proof.
  unfold undo_sort. destruct (undo_data app) as [|record log] eqn:Hlog.
  - exact Hlog.
  - destruct (undo_moves os app fs) as [[app1 fs1] dirs].
    by destruct (remove_empty_dirs app1 fs1 (set_order os dirs))
      as [[app2 fs2] removed].
Qed.

Lemma undo_sort_nothing os app fs :
  undo_data app = [] → undo_sort os app fs = (update_status NothingToUndo app, fs).
Proof. intros Hlog. unfold undo_sort. by rewrite Hlog. Qed.

(** C6: whatever happens to the single reversals, [undo_sort] leaves an
    empty log, so that a second undo straight after it only reports that
    there is nothing to undo and leaves the tree alone.  When the platform
    refuses every move back, the files stay in their folders and the log is
    emptied all the same. *)
Theorem undo_clears_log :
  (∀ os app fs,
     undo_data (undo_sort os app fs).1 = [] ∧
     undo_sort os (undo_sort os app fs).1 (undo_sort os app fs).2
     = (update_status NothingToUndo (undo_sort os app fs).1,
        (undo_sort os app fs).2))
  ∧ (let r := sorted plain app_box report_tree (children report_tree box) in
     let u := undo_sort locked r.1 r.2 in
     undo_data r.1
     = [(box ++ ["Documents"; "report_1.pdf"], box ++ ["report.pdf"])] ∧
     u.2 !! (box ++ ["Documents"; "report_1.pdf"]) = Some (File "second") ∧
     u.2 !! (box ++ ["report.pdf"]) = None ∧
     undo_data u.1 = [] ∧
     status (undo_sort locked u.1 u.2).1 = NothingToUndo).
Proof.
  split.
  - intros os app fs. split; [apply undo_sort_log|].
    apply undo_sort_nothing, undo_sort_log.
  - vm_compute. repeat split; reflexivity.
Qed.

Lemma foldl_snoc {A B} (f : A → B → A) a l x :
  foldl f a (l ++ [x]) = f (foldl f a l) x.
Proof. by rewrite foldl_app. Qed.

(** Every directory the first loop of [undo_sort] collects is the parent of
    a destination that existed when its turn came. *)
Lemma undo_loop_touched os total st log d :
  d ∈ (undo_loop os total st log).2 →
  d ∈ st.2 ∨
  ∃ before new_path original after,
    log = before ++ (new_path, original) :: after ∧
    parent new_path = d ∧
    path_exists (tree_of (undo_loop os total st before)) new_path = true.
Proof.
  unfold undo_loop. induction log as [|[np op] log IH] using rev_ind.
  - simpl. by left.
  - rewrite foldl_snoc.
    destruct (foldl (undo_move os total) st log) as [[app1 fs1] dirs] eqn:Hl.
    unfold undo_move at 1.
    destruct (path_exists fs1 np) eqn:He.
    + intros Hd.
      assert (d ∈ set_add (parent np) dirs) as Hd'.
      { destruct (shutil_move os fs1 np op); exact Hd. }
      clear Hd. unfold set_add in Hd'.
      destruct (decide (parent np ∈ dirs)) as [Hin|Hout].
      * destruct (IH Hd') as [?|(b & n & o & a & -> & Hp & Hex)];
          [by left|right].
        exists b, n, o, (a ++ [(np, op)]).
        split; [by rewrite <-app_assoc|done].
      * apply elem_of_app in Hd' as [Hd'|Hd'%list_elem_of_singleton].
        -- destruct (IH Hd') as [?|(b & n & o & a & -> & Hp & Hex)];
             [by left|right].
           exists b, n, o, (a ++ [(np, op)]).
           split; [by rewrite <-app_assoc|done].
        -- right. exists log, np, op, []. split; [done|]. split; [done|].
           unfold tree_of. by rewrite Hl.
    + simpl. intros Hd.
      destruct (IH Hd) as [?|(b & n & o & a & -> & Hp & Hex)]; [by left|right].
      exists b, n, o, (a ++ [(np, op)]).
      split; [by rewrite <-app_assoc|done].
Qed.

(** What one step of the second loop of [undo_sort] does to the tree. *)
Lemma remove_if_empty_tree st d :
  tree_of (remove_if_empty st d) = tree_of st ∨
  (tree_of (remove_if_empty st d) = delete d (tree_of st) ∧
   is_dir (tree_of st) d = true ∧ children (tree_of st) d = []).
Proof.
  destruct st as [[app fs] n]. unfold remove_if_empty, tree_of. simpl.
  destruct (path_exists fs d); [|by left].
  unfold rmdir, iterdir. destruct (is_dir fs d) eqn:Hd; [|by left].
  destruct (children fs d) eqn:Hc; [|by left]. right. done.
Qed.

(** A path that the second loop of [undo_sort] takes away is one of the
    directories it was given, and was an empty directory when its turn
    came. *)
Lemma remove_empty_dirs_removed app fs dirs d :
  path_exists fs d = true →
  path_exists (tree_of (remove_empty_dirs app fs dirs)) d = false →
  ∃ earlier later,
    dirs = earlier ++ d :: later ∧
    is_dir (tree_of (remove_empty_dirs app fs earlier)) d = true ∧
    children (tree_of (remove_empty_dirs app fs earlier)) d = [].
Proof.
  unfold remove_empty_dirs. intros Hex.
  induction dirs as [|x dirs IH] using rev_ind.
  - simpl. unfold tree_of. simpl. congruence.
  - rewrite foldl_snoc. intros Hgone.
    destruct (path_exists (tree_of (foldl remove_if_empty (app, fs, 0) dirs)) d)
      eqn:Hthen.
    + destruct (remove_if_empty_tree (foldl remove_if_empty (app, fs, 0) dirs) x)
        as [Hsame|(Hdel & Hdir & Hempty)].
      * rewrite Hsame in Hgone. congruence.
      * rewrite Hdel in Hgone. apply path_exists_false in Hgone.
        destruct (decide (x = d)) as [->|Hne].
        -- exists dirs, []. done.
        -- rewrite lookup_delete_ne in Hgone by done.
           apply path_exists_false in Hgone. congruence.
    + destruct (IH eq_refl) as (e & l & -> & Hdir & Hempty).
      exists e, (l ++ [x]). split; [by rewrite <-app_assoc|done].
Qed.

(** The second loop of [undo_sort] never adds a path. *)
Lemma remove_empty_dirs_no_new app fs dirs p :
  fs !! p = None → tree_of (remove_empty_dirs app fs dirs) !! p = None.
Proof.
  unfold remove_empty_dirs. intros Hp.
  induction dirs as [|x dirs IH] using rev_ind; [done|].
  rewrite foldl_snoc.
  destruct (remove_if_empty_tree (foldl remove_if_empty (app, fs, 0) dirs) x)
    as [->|(-> & _)]; [done|].
  destruct (decide (x = p)) as [->|Hne].
  - apply lookup_delete_eq.
  - by rewrite lookup_delete_ne.
Qed.

Lemma undo_sort_tree os app fs :
  undo_data app ≠ [] →
  (undo_sort os app fs).2
  = tree_of (remove_empty_dirs (undo_moves os app fs).1.1
               (tree_of (undo_moves os app fs))
               (set_order os (undo_moves os app fs).2)).
Proof.
  intros Hlog. unfold undo_sort.
  destruct (undo_data app) as [|record log]; [done|].
  destruct (undo_moves os app fs) as [[app1 fs1] dirs]. unfold tree_of. simpl.
  by destruct (remove_empty_dirs app1 fs1 (set_order os dirs))
    as [[app2 fs2] removed].
Qed.

(** C7: a path that is there when the cleanup of [undo_sort] starts and is
    gone when it ends is the parent of a destination that existed when its
    reversal was tried, and was a directory without entries when the cleanup
    came to it; the cleanup adds no path. *)
Theorem cleanup_only_touched_empty os app fs d :
  (∀ l, set_order os l ≡ₚ l) →
  undo_data app ≠ [] →
  path_exists (tree_of (undo_moves os app fs)) d = true →
  path_exists (undo_sort os app fs).2 d = false →
  (∃ before new_path original after,
      undo_data app = before ++ (new_path, original) :: after ∧
      parent new_path = d ∧
      path_exists
        (tree_of (undo_loop os (length (undo_data app))
                    (update_progress (0, length (undo_data app)) app, fs, [])
                    before))
        new_path = true)
  ∧ (∃ earlier later,
      set_order os (undo_moves os app fs).2 = earlier ++ d :: later ∧
      is_dir (tree_of (remove_empty_dirs (undo_moves os app fs).1.1
                         (tree_of (undo_moves os app fs)) earlier)) d = true ∧
      children (tree_of (remove_empty_dirs (undo_moves os app fs).1.1
                           (tree_of (undo_moves os app fs)) earlier)) d = [])
  ∧ (∀ p, tree_of (undo_moves os app fs) !! p = None →
          (undo_sort os app fs).2 !! p = None).
Proof.
  intros Horder Hlog Hthere Hgone.
  rewrite (undo_sort_tree os app fs Hlog) in Hgone.
  destruct (remove_empty_dirs_removed _ _ _ _ Hthere Hgone)
    as (earlier & later & Hsplit & Hdir & Hempty).
  split; [|split].
  - assert (d ∈ (undo_moves os app fs).2) as Hd.
    { rewrite <-(Horder (undo_moves os app fs).2), Hsplit.
      apply elem_of_app. right. by left. }
    apply undo_loop_touched in Hd as [Hd|Hd]; [|exact Hd].
    simpl in Hd. by apply elem_of_nil in Hd.
  - by exists earlier, later.
  - intros p Hp. rewrite (undo_sort_tree os app fs Hlog).
    by apply remove_empty_dirs_no_new.
Qed.

Lemma cleanup_only_touched_empty_witness :
  ((∀ l, set_order plain l ≡ₚ l) ∧
   undo_data (sorted plain app_box documents_tree
                (children documents_tree box)).1 ≠ [] ∧
   path_exists
     (tree_of (undo_moves plain
                 (sorted plain app_box documents_tree
                    (children documents_tree box)).1
                 (sorted plain app_box documents_tree
                    (children documents_tree box)).2))
     (box ++ ["Others"]) = true ∧
   path_exists
     (undo_sort plain
        (sorted plain app_box documents_tree (children documents_tree box)).1
        (sorted plain app_box documents_tree (children documents_tree box)).2).2
     (box ++ ["Others"]) = false) ∧
  ∃ earlier later,
    set_order plain
      (undo_moves plain
         (sorted plain app_box documents_tree (children documents_tree box)).1
         (sorted plain app_box documents_tree (children documents_tree box)).2).2
    = earlier ++ (box ++ ["Others"]) :: later.
Proof.
  assert (∀ l, set_order plain l ≡ₚ l) as Horder by (intros l; reflexivity).
  assert (undo_data (sorted plain app_box documents_tree
                       (children documents_tree box)).1 ≠ [])
    as Hlog by (vm_compute; discriminate).
  split; [split; [exact Horder|split; [exact Hlog|split; vm_compute; reflexivity]]|].
  destruct (cleanup_only_touched_empty plain
              (sorted plain app_box documents_tree
                 (children documents_tree box)).1
              (sorted plain app_box documents_tree
                 (children documents_tree box)).2
              (box ++ ["Others"]) Horder Hlog)
    as (_ & (earlier & later & Hsplit & _) & _).
  - vm_compute. reflexivity.
  - vm_compute. reflexivity.
  - exists earlier, later. exact Hsplit.
Defined.

(** ** More on a sort *)



(** X2: the category [get_category] gives to a path is always a key of the
    table, so that appending to [last_sort_results] under it cannot miss its
    key in a dictionary that has the table's keys, as the one [action_sort]
    starts from has. *)
Theorem results_key_present file_path new_path results :
  results.*1 = FileCategory.category_names →
  FileCategory.get_category file_path ∈ FileCategory.category_names ∧
  ∃ results',
    dict_append (FileCategory.get_category file_path) new_path results
    = Some results' ∧
    results'.*1 = FileCategory.category_names ∧
    total_sorted results' = S (total_sorted results).
Proof.
  intros Hkeys. split; [apply get_category_name|].
  destruct (dict_append_key (FileCategory.get_category file_path) new_path
              results) as (r & Hr & Hk & Hperm).
  { rewrite Hkeys. apply get_category_name. }
  exists r. split; [done|]. split; [congruence|].
  rewrite !total_sorted_length, Hperm. done.
Qed.

Lemma results_key_present_witness :
  empty_results.*1 = FileCategory.category_names ∧
  ∃ results',
    dict_append (FileCategory.get_category (box ++ ["a.xyz"]))
      (box ++ ["Others"; "a.xyz"]) empty_results = Some results'.
Proof.
  split; [reflexivity|].
  destruct (results_key_present (box ++ ["a.xyz"]) (box ++ ["Others"; "a.xyz"])
              empty_results eq_refl) as (_ & r & Hr & _).
  exists r. exact Hr.
Defined.

(** ** The first pass *)

Lemma categorize_snoc files f :
  categorize (files ++ [f])
  = group_add (FileCategory.get_category f) f (categorize files).
Proof. unfold categorize. by rewrite foldl_app. Qed.

Lemma group_add_keys {K X} `{EqDecision K} (k : K) (x : X) d :
  (group_add k x d).*1 = if decide (k ∈ d.*1) then d.*1 else d.*1 ++ [k].
Proof.
  induction d as [|[k' xs] d IH]; csimpl; [done|].
  destruct (decide (k' = k)) as [->|Hne]; csimpl.
  - rewrite decide_True by (by left). done.
  - rewrite IH. destruct (decide (k ∈ d.*1)) as [Hin|Hout].
    + rewrite decide_True by (by right). done.
    + rewrite decide_False; [done|].
      intros [?|?]%elem_of_cons; [congruence|done].
Qed.

Lemma dict_get_elem_of {K V} `{EqDecision K} (d : list (K * V)) k v :
  NoDup d.*1 → (k, v) ∈ d ↔ dict_get k d = Some v.
Proof.
  induction d as [|[k0 v0] d IH]; csimpl.
  - intros _. split; [by intros ?%elem_of_nil|done].
  - intros [Hk0 Hnd]%NoDup_cons. rewrite elem_of_cons, (IH Hnd).
    destruct (decide (k0 = k)) as [->|Hne].
    + split.
      * intros [Heq|Hget]; [congruence|]. destruct Hk0.
        apply (IH Hnd) in Hget.
        by apply (list_elem_of_fmap_2 fst d (k, v)).
      * intros [= ->]. by left.
    + split.
      * intros [Heq|Hget]; [congruence|done].
      * intros Hget. by right.
Qed.

Lemma dict_get_group_add {K X} `{EqDecision K} (k : K) (x : X) d k' :
  dict_get k' (group_add k x d)
  = if decide (k' = k) then Some (default [] (dict_get k d) ++ [x])
    else dict_get k' d.
Proof.
  induction d as [|[k0 xs] d IH]; simpl.
  - destruct (decide (k = k')) as [->|Hne].
    + by rewrite decide_True.
    + by rewrite decide_False by congruence.
  - destruct (decide (k0 = k)) as [->|Hne]; simpl.
    + destruct (decide (k = k')) as [->|Hne'].
      * by rewrite decide_True.
      * by rewrite decide_False by congruence.
    + destruct (decide (k0 = k')) as [->|Hne'].
      * by rewrite decide_False.
      * exact IH.
Qed.

Lemma dict_get_categorize files category :
  dict_get category (categorize files)
  = match filter (λ f, FileCategory.get_category f = category) files with
    | [] => None
    | group => Some group
    end.
Proof.
  induction files as [|f files IH] using rev_ind; [done|].
  rewrite categorize_snoc, dict_get_group_add, filter_app.
  destruct (decide (category = FileCategory.get_category f)) as [->|Hne].
  - rewrite filter_cons_True by done. rewrite filter_nil, IH.
    by destruct (filter _ files).
  - rewrite filter_cons_False by congruence. by rewrite filter_nil, app_nil_r.
Qed.

Lemma NoDup_categorize files : NoDup (categorize files).*1.
Proof.
  induction files as [|f files IH] using rev_ind; [constructor|].
  rewrite categorize_snoc, group_add_keys. destruct (decide _); [done|].
  apply NoDup_app. split; [done|]. split; [|apply NoDup_singleton].
  intros k Hk ->%list_elem_of_singleton. done.
Qed.

(** X3: the first pass puts every file in the group of its category and
    nowhere else: the groups have distinct categories, the group of a
    category holds the files of that category in the order they were listed,
    and it exists exactly when there is such a file. *)
Theorem categorize_groups files :
  NoDup (categorize files).*1 ∧
  (∀ category group,
     (category, group) ∈ categorize files ↔
     group ≠ [] ∧
     group = filter (λ f, FileCategory.get_category f = category) files).
Proof.
  split; [apply NoDup_categorize|]. intros c g.
  rewrite (dict_get_elem_of _ _ _ (NoDup_categorize files)).
  rewrite dict_get_categorize.
  destruct (filter (λ f, FileCategory.get_category f = c) files) as [|f0 l].
  - split; [done|]. by intros [? ->].
  - split; [by intros [= <-]|]. by intros [_ ->].
Qed.

(** ** The results screen *)

Lemma named_files_app a b :
  named_files (a ++ b) = named_files a + named_files b.
Proof. unfold named_files. by rewrite map_app, sum_list_with_app. Qed.

Lemma counted_files_app a b :
  counted_files (a ++ b) = counted_files a + counted_files b.
Proof. unfold counted_files. by rewrite map_app, sum_list_with_app. Qed.

Lemma file_items_counts (l : list path) :
  named_files (map (λ file, FileItem (name file)) l) = length l ∧
  counted_files (map (λ file, FileItem (name file)) l) = 0.
Proof.
  unfold named_files, counted_files.
  induction l as [|x l [IH1 IH2]]; [done|]. simpl. by rewrite IH1, IH2.
Qed.

Lemma category_container_counts entry :
  named_files (category_container entry)
  + counted_files (category_container entry) = length entry.2 ∧
  named_files (category_container entry) ≤ 5.
Proof.
  destruct entry as [c l]. unfold category_container. simpl snd.
  destruct l as [|f l']; [cbv; lia|].
  set (files := f :: l').
  destruct (file_items_counts (take 5 files)) as [Hn Hc].
  change (CategoryTitle c (length files)
          :: map (λ file, FileItem (name file)) (take 5 files)
          ++ (if 5 <? length files then [FileItemMore (length files - 5)]
              else []))
    with ([CategoryTitle c (length files)]
          ++ map (λ file, FileItem (name file)) (take 5 files)
          ++ (if 5 <? length files then [FileItemMore (length files - 5)]
              else [])).
  rewrite !named_files_app, !counted_files_app, Hn, Hc, length_take.
  destruct (5 <? length files) eqn:Hlen.
  - apply Nat.ltb_lt in Hlen. cbv [named_files counted_files map sum_list_with id].
    lia.
  - apply Nat.ltb_ge in Hlen. cbv [named_files counted_files map sum_list_with id].
    lia.
Qed.

Lemma containers_count results :
  named_files (concat (map category_container results))
  + counted_files (concat (map category_container results))
  = length (concat results.*2).
Proof.
  induction results as [|entry results IH]; [done|].
  destruct (category_container_counts entry) as [Hsum _].
  csimpl. rewrite named_files_app, counted_files_app, length_app. lia.
Qed.

(** X4: the results screen accounts for every file in the results: the
    files it names and the files it only counts add up to the total it
    announces, which is the number of paths in the results; a category is
    named with at most five of its files. *)
Theorem compose_accounts results :
  ResultsSummary (length (concat results.*2)) ∈ compose results ∧
  named_files (compose results) + counted_files (compose results)
  = length (concat results.*2) ∧
  Forall (λ entry, named_files (category_container entry) ≤ 5) results.
Proof.
  split; [|split].
  - unfold compose. rewrite total_sorted_length.
    apply elem_of_app. left. right. right. left.
  - unfold compose.
    rewrite !named_files_app, !counted_files_app.
    pose proof (containers_count results) as Hc.
    change (named_files [Header; ResultsTitle;
                         ResultsSummary (total_sorted results)]) with 0.
    change (counted_files [Header; ResultsTitle;
                           ResultsSummary (total_sorted results)]) with 0.
    change (named_files [BackButton; Footer]) with 0.
    change (counted_files [BackButton; Footer]) with 0.
    lia.
  - apply Forall_forall. intros entry _.
    apply category_container_counts.
Qed.




(** ** More on an undo *)

Lemma remove_if_empty_count app fs n d :
  size fs + n
  = size (tree_of (remove_if_empty (app, fs, n) d))
    + (remove_if_empty (app, fs, n) d).2.
Proof.
  unfold remove_if_empty, tree_of.
  destruct (path_exists fs d); [|done].
  unfold rmdir, iterdir. destruct (is_dir fs d) eqn:Hd; [|done].
  destruct (children fs d); [|done]. simpl.
  apply is_dir_spec in Hd.
  rewrite (map_size_delete_Some d fs) by (by eexists).
  assert (0 < size fs); [|lia].
  destruct (decide (size fs = 0)) as [H0|]; [|lia].
  apply map_size_empty_iff in H0. subst fs. by rewrite lookup_empty in Hd.
Qed.

Lemma remove_empty_dirs_count app fs dirs :
  size fs
  = size (tree_of (remove_empty_dirs app fs dirs))
    + (remove_empty_dirs app fs dirs).2.
Proof.
  unfold remove_empty_dirs.
  induction dirs as [|d dirs IH] using rev_ind; [simpl; unfold tree_of; simpl; lia|].
  rewrite foldl_snoc.
  destruct (foldl remove_if_empty (app, fs, 0) dirs) as [[app1 fs1] n].
  pose proof (remove_if_empty_count app1 fs1 n d) as Hstep.
  unfold tree_of in *. simpl in IH. lia.
Qed.

(** X6: the number of directories an undo reports as removed is the number
    of paths its cleanup took out of the tree. *)
Theorem undo_reports_removed os app fs :
  undo_data app ≠ [] →
  ∃ removed_dirs,
    status (undo_sort os app fs).1 = UndoComplete removed_dirs ∧
    size (tree_of (undo_moves os app fs))
    = size (undo_sort os app fs).2 + removed_dirs.
Proof.
  intros Hlog. unfold undo_sort.
  destruct (undo_data app) as [|record log]; [done|].
  destruct (undo_moves os app fs) as [[app1 fs1] dirs] eqn:Hmoves.
  pose proof (remove_empty_dirs_count app1 fs1 (set_order os dirs)) as Hcount.
  destruct (remove_empty_dirs app1 fs1 (set_order os dirs))
    as [[app2 fs2] removed].
  exists removed. split; [done|]. exact Hcount.
Qed.

Lemma undo_reports_removed_witness :
  undo_data (sorted plain app_box documents_tree
               (children documents_tree box)).1 ≠ [] ∧
  ∃ removed_dirs,
    status (undo_sort plain
              (sorted plain app_box documents_tree
                 (children documents_tree box)).1
              (sorted plain app_box documents_tree
                 (children documents_tree box)).2).1
    = UndoComplete removed_dirs.
Proof.
  assert (undo_data (sorted plain app_box documents_tree
                       (children documents_tree box)).1 ≠ [])
    as Hlog by (vm_compute; discriminate).
  split; [exact Hlog|].
  destruct (undo_reports_removed plain
              (sorted plain app_box documents_tree
                 (children documents_tree box)).1
              (sorted plain app_box documents_tree
                 (children documents_tree box)).2 Hlog)
    as (n & Hstatus & _).
  exists n. exact Hstatus.
Defined.

(** ** Sorting, then undoing, where the round trip holds *)

Lemma well_formed_spec fs :
  well_formed fs = true →
  ∀ p, is_Some (fs !! p) → p = [] ∨ is_dir fs (parent p) = true.
Proof.
  unfold well_formed. rewrite forallb_forall. intros Hall p [y Hp].
  assert (In p (map_to_list fs).*1) as Hin.
  { apply list_elem_of_In, list_elem_of_fmap. exists (p, y).
    split; [done|]. by apply elem_of_map_to_list. }
  apply Hall, orb_prop in Hin as [Hroot|Hdir]; [left|by right].
  by apply bool_decide_eq_true in Hroot.
Qed.

Lemma children_nil fs d :
  (∀ p, is_child d p → fs !! p = None) → children fs d = [].
Proof.
  intros Hnone. destruct (children fs d) as [|p l] eqn:Hc; [done|].
  assert (p ∈ children fs d) as Hp by (rewrite Hc; by left).
  apply elem_of_children in Hp as [Hchild [y Hy]].
  rewrite (Hnone p Hchild) in Hy. discriminate Hy.
Qed.

Lemma child_join d p : is_child d p → p = join d (name p).
Proof. intros [n ->]%is_child_join. by rewrite name_join. Qed.

Lemma parent_eq_join_name p : p ≠ [] → p = join (parent p) (name p).
Proof. intros Hp. by apply child_join. Qed.

Lemma destination_parent selected f :
  parent (destination selected f)
  = join selected (FileCategory.get_category f).
Proof. apply parent_join. Qed.

Lemma destination_inj selected f g :
  parent f = selected → parent g = selected → f ≠ [] → g ≠ [] →
  destination selected f = destination selected g → f = g.
Proof.
  intros Hf Hg Hfn Hgn [_ Hname]%join_inj.
  rewrite (parent_eq_join_name f Hfn), (parent_eq_join_name g Hgn).
  by rewrite Hf, Hg, Hname.
Qed.

Lemma destination_ne_child selected f p :
  parent p = selected → destination selected f ≠ p.
Proof.
  intros Hp Heq. apply (f_equal parent) in Heq.
  rewrite destination_parent, Hp in Heq. by apply join_ne_self in Heq.
Qed.

Lemma destination_ne_category selected f category :
  destination selected f ≠ join selected category.
Proof.
  intros [Heq _]%join_inj. by apply join_ne_self in Heq.
Qed.

Lemma non_empty_elem {A} (l : list A) : l ≠ [] → ∃ x, x ∈ l.
Proof. destruct l as [|x l]; [done|]. intros _. exists x. by left. Qed.

Section RoundTrip.

Variables (os : Platform) (selected : path) (fs0 : FS) (files : list path).

Hypothesis selected_dir : is_dir fs0 selected = true.
Hypothesis files_regular : ∀ f, f ∈ files → is_file fs0 f = true.
Hypothesis files_inside : ∀ f, f ∈ files → is_child selected f.
Hypothesis files_all :
  ∀ p, is_child selected p → is_Some (fs0 !! p) → p ∈ files.
Hypothesis files_names :
  ∀ f g, f ∈ files → g ∈ files → name f ≠ FileCategory.get_category g.
Hypothesis tree_well_formed : well_formed fs0 = true.
Hypothesis all_permitted : ∀ src dst, permitted os src dst = true.
Hypothesis order_permutes : ∀ l, set_order os l ≡ₚ l.

Let dest := destination selected.
Let folder (f : path) := join selected (FileCategory.get_category f).

(** No category folder of a listed file stands in the tree, and nothing
    stands where such a folder would hold it. *)
Lemma folder_absent g : g ∈ files → fs0 !! folder g = None.
Proof.
  intros Hg. destruct (fs0 !! folder g) as [y|] eqn:Hy; [|done].
  assert (folder g ∈ files) as Hin.
  { apply files_all; [|by eexists]. apply is_child_join. by eexists. }
  destruct (files_names (folder g) g Hin Hg). apply name_join.
Qed.

Lemma below_folder_absent g x : g ∈ files → fs0 !! join (folder g) x = None.
Proof.
  intros Hg. destruct (fs0 !! join (folder g) x) as [y|] eqn:Hy; [|done].
  destruct (well_formed_spec fs0 tree_well_formed (join (folder g) x))
    as [Hroot|Hdir]; [by eexists|by apply join_ne_nil in Hroot|].
  rewrite parent_join in Hdir. apply is_dir_spec in Hdir.
  by rewrite folder_absent in Hdir.
Qed.

Lemma file_ne_folder f g : f ∈ files → g ∈ files → f ≠ folder g.
Proof.
  intros Hf Hg ->. destruct (files_names (folder g) g Hf Hg). apply name_join.
Qed.

Lemma file_parent f : f ∈ files → parent f = selected.
Proof. by intros [_ ?]%files_inside. Qed.

Lemma file_ne_nil f : f ∈ files → f ≠ [].
Proof. by intros [? _]%files_inside. Qed.

Lemma file_content f : f ∈ files → ∃ x, fs0 !! f = Some (File x).
Proof. by intros ?%files_regular%is_file_spec. Qed.

(** What holds between two steps of a sort in which nothing stands in the
    way, beside [sort_inv]. *)
Let smooth (pending : list path) (app : App) (fs : FS) : Prop :=
  (∀ new_path original,
     (new_path, original) ∈ undo_data app → new_path = dest original) ∧
  (∀ f, f ∈ files → f ∉ pending → f ∈ (undo_data app).*2) ∧
  (∀ f, f ∈ files → f ∉ pending → is_dir fs (folder f) = true).

Let inv := sort_inv selected fs0 files.

Lemma smooth_destination_free pending app fs n f :
  inv (f :: pending) app fs n → smooth (f :: pending) app fs →
  fs !! dest f = None.
Proof.
  intros Hinv (Hdest & _ & _). inv_fields Hinv.
  assert (f ∈ files) as Hf by (apply Ipfiles; by left).
  destruct (fs !! dest f) as [[x|]|] eqn:Hy; [| |done].
  - destruct (Ifiles _ _ Hy) as [H0|(op & Hin & _)].
    + unfold dest, destination in H0. fold (folder f) in H0.
      by rewrite below_folder_absent in H0.
    + destruct (Irec _ _ Hin) as (Hop & Hnot & _).
      apply Hdest in Hin.
      apply destination_inj in Hin;
        [|by apply file_parent|by apply file_parent
         |by apply file_ne_nil|by apply file_ne_nil].
      subst op. destruct Hnot. by left.
  - destruct (Idirs _ Hy) as [H0|(g & Hg & Heq)].
    + unfold dest, destination in H0. fold (folder f) in H0.
      by rewrite below_folder_absent in H0.
    + by apply destination_ne_category in Heq.
Qed.

(** The folder of a category, when it is there as the loop comes to it, is
    a directory. *)
Lemma smooth_folder_dir pending app fs n f :
  inv pending app fs n → f ∈ files →
  path_exists fs (folder f) = true → is_dir fs (folder f) = true.
Proof.
  intros Hinv Hf [[x|] Hy]%path_exists_spec; [|by apply is_dir_spec].
  inv_fields Hinv. destruct (Ifiles _ _ Hy) as [H0|(op & Hin & _)].
  - by rewrite folder_absent in H0.
  - destruct (Irec _ _ Hin) as (_ & _ & _ & Hpar).
    unfold folder in Hpar. rewrite parent_join in Hpar.
    symmetry in Hpar. by apply join_ne_self in Hpar.
Qed.

Lemma resolve_destination_free_name fs category_dir f :
  fs !! join category_dir (name f) = None →
  resolve_destination fs category_dir f = Some (join category_dir (name f)).
Proof.
  intros Hfree%path_exists_false. unfold resolve_destination. simpl.
  by rewrite Hfree.
Qed.

Lemma shutil_move_permitted fs src dst x :
  fs !! src = Some (File x) → fs !! dst = None →
  is_dir fs (parent dst) = true →
  shutil_move os fs src dst = Some (<[dst := File x]> (delete src fs)).
Proof.
  intros Hsrc Hdst Hpar. unfold shutil_move, is_dir at 1. rewrite Hdst.
  unfold rename. rewrite all_permitted, Hsrc, Hpar. simpl.
  unfold is_dir. by rewrite Hdst.
Qed.

Lemma move_file_smooth pending app fs n f :
  inv (f :: pending) app fs n → smooth (f :: pending) app fs →
  is_dir fs (folder f) = true →
  ∃ app' fs',
    move_file os (FileCategory.get_category f) (folder f) (length files)
      (app, fs, n) f = Done (app', fs', S n) ∧
    inv pending app' fs' (S n) ∧ smooth pending app' fs' ∧
    (∀ d, is_dir fs d = true → is_dir fs' d = true).
Proof.
  intros Hinv Hsmooth Hfolder.
  pose proof (smooth_destination_free _ _ _ _ _ Hinv Hsmooth) as Hfree.
  destruct (move_file_inv os selected fs0 files files_regular file_parent
              pending app fs n f Hinv) as (app' & fs' & Hstep & Hinv').
  exists app', fs'. split; [exact Hstep|]. split; [exact Hinv'|].
  destruct Hsmooth as (Hdest & Hall & Hdirs). inv_fields Hinv.
  assert (f ∈ files) as Hf by (apply Ipfiles; by left).
  destruct (file_content f Hf) as [x Hx0].
  assert (fs !! f = Some (File x)) as Hx by (rewrite Ipend; [done|by left]).
  unfold move_file in Hstep. fold (folder f) in Hstep.
  destruct (decide (parent f = folder f)) as [Heq|_].
  { rewrite file_parent in Heq by done. symmetry in Heq.
    by apply join_ne_self in Heq. }
  rewrite (resolve_destination_free_name fs (folder f) f Hfree) in Hstep.
  rewrite (shutil_move_permitted fs f (join (folder f) (name f)) x Hx Hfree)
    in Hstep by (by rewrite parent_join).
  destruct (dict_append_key (FileCategory.get_category f)
              (join (folder f) (name f)) (last_sort_results app))
    as (results & Hres & _).
  { rewrite <-Ikeys. apply get_category_name. }
  rewrite Hres in Hstep. injection Hstep as <- <-.
  assert (dest f ∉ (undo_data app).*1) as Hnew.
  { intros ([np op] & Heq & Hin)%list_elem_of_fmap. simpl in Heq. subst np.
    destruct (Irec _ _ Hin) as (Hop & _ & Hlook & _).
    destruct (file_content op Hop) as [z Hz]. congruence. }
  assert (∀ d, is_dir fs d = true →
               is_dir (<[dest f := File x]> (delete f fs)) d = true) as Hkeep.
  { intros d Hd%is_dir_spec. apply is_dir_spec.
    rewrite lookup_insert_ne by congruence.
    rewrite lookup_delete_ne by congruence. done. }
  split; [|exact Hkeep]. unfold smooth. csimpl.
  fold (dest f). rewrite (dict_set_fresh _ _ _ Hnew).
  split; [|split].
  - intros np op [Hin|[= -> ->]%list_elem_of_singleton]%elem_of_app;
      [by apply Hdest|done].
  - intros g Hg Hp. rewrite fmap_app. apply elem_of_app.
    destruct (decide (g = f)) as [->|Hne]; [right; by left|left].
    apply Hall; [done|]. intros [?|?]%elem_of_cons; done.
  - intros g Hg Hp. apply Hkeep.
    destruct (decide (g = f)) as [->|Hne]; [done|].
    apply Hdirs; [done|]. intros [?|?]%elem_of_cons; done.
Qed.

Lemma move_files_smooth category category_files pending app fs n :
  (∀ f, f ∈ category_files → FileCategory.get_category f = category) →
  inv (category_files ++ pending) app fs n →
  smooth (category_files ++ pending) app fs →
  is_dir fs (join selected category) = true →
  ∃ app' fs',
    for_each (move_file os category (join selected category) (length files))
      category_files (app, fs, n)
    = Done (app', fs', n + length category_files) ∧
    inv pending app' fs' (n + length category_files) ∧
    smooth pending app' fs'.
Proof.
  revert app fs n.
  induction category_files as [|f l IH]; intros app fs n Hcat Hinv Hsm Hdir.
  - exists app, fs. simpl. by rewrite Nat.add_0_r.
  - assert (folder f = join selected category) as Hfolder.
    { unfold folder. rewrite (Hcat f); [done|by left]. }
    destruct (move_file_smooth _ _ _ _ _ Hinv Hsm)
      as (app1 & fs1 & Hstep & Hinv1 & Hsm1 & Hkeep).
    { by rewrite Hfolder. }
    rewrite Hfolder, (Hcat f) in Hstep by (by left).
    rewrite for_each_cons, Hstep, bind_done. simpl length.
    destruct (IH app1 fs1 (S n)) as (app2 & fs2 & Hrest & Hinv2 & Hsm2);
      [|done|done|by apply Hkeep|].
    { intros g Hg. apply Hcat. by right. }
    exists app2, fs2. replace (n + S (length l)) with (S n + length l) by lia.
    done.
Qed.

Lemma sort_category_smooth category category_files pending app fs n :
  category_files ≠ [] →
  (∀ f, f ∈ category_files → FileCategory.get_category f = category) →
  inv (category_files ++ pending) app fs n →
  smooth (category_files ++ pending) app fs →
  ∃ app' fs',
    sort_category os selected (length files) (app, fs, n)
      (category, category_files)
    = Done (app', fs', n + length category_files) ∧
    inv pending app' fs' (n + length category_files) ∧
    smooth pending app' fs'.
Proof.
  intros Hne Hcat Hinv Hsm. unfold sort_category.
  destruct category_files as [|f l] eqn:Hl; [done|]. rewrite <-Hl in *.
  assert (f ∈ category_files) as Hf by (rewrite Hl; by left).
  assert (f ∈ files) as Hff.
  { apply (inv_pending_files _ _ _ _ _ _ _ Hinv), elem_of_app. by left. }
  assert (folder f = join selected category) as Hfolder.
  { unfold folder. by rewrite (Hcat f). }
  destruct (path_exists fs (join selected category)) eqn:He.
  - rewrite bind_done. apply move_files_smooth; [done..|].
    rewrite <-Hfolder. eapply smooth_folder_dir; [done..|].
    by rewrite Hfolder.
  - rewrite <-Hfolder in He.
    destruct (mkdir_inv selected fs0 files files_regular _ _ _ _ f Hinv Hff He)
      as (fs1 & Hmk & Hinv1).
    pose proof Hmk as Hfs1. apply mkdir_fresh in Hfs1;
      [|by apply path_exists_false].
    fold (folder f) in Hmk. rewrite Hfolder in Hmk.
    rewrite Hmk, bind_done.
    apply move_files_smooth; [done|done| |].
    + destruct Hsm as (Hdest & Hall & Hdirs). split; [done|]. split; [done|].
      intros g Hg Hp. specialize (Hdirs g Hg Hp). subst fs1.
      apply is_dir_spec. apply is_dir_spec in Hdirs.
      apply path_exists_false in He. unfold folder in *.
      rewrite lookup_insert_ne; [done|]. congruence.
    + subst fs1. apply is_dir_spec. rewrite <-Hfolder.
      apply lookup_insert_eq.
Qed.

Lemma sort_categories_smooth groups app fs n :
  Forall (λ g : string * list path,
            g.2 ≠ [] ∧ ∀ f, f ∈ g.2 → FileCategory.get_category f = g.1)
         groups →
  inv (concat groups.*2) app fs n →
  smooth (concat groups.*2) app fs →
  ∃ app' fs',
    for_each (sort_category os selected (length files)) groups (app, fs, n)
    = Done (app', fs', n + length (concat groups.*2)) ∧
    inv [] app' fs' (n + length (concat groups.*2)) ∧
    smooth [] app' fs'.
Proof.
  intros Hall. revert app fs n.
  induction Hall as [|[c l] groups [Hne Hcat] _ IH]; intros app fs n Hinv Hsm.
  - simpl. exists app, fs. by rewrite Nat.add_0_r.
  - simpl in Hne, Hcat, Hinv, Hsm.
    destruct (sort_category_smooth c l _ _ _ _ Hne Hcat Hinv Hsm)
      as (app1 & fs1 & Hstep & Hinv1 & Hsm1).
    rewrite for_each_cons, Hstep, bind_done.
    destruct (IH _ _ _ Hinv1 Hsm1) as (app2 & fs2 & Hrest & Hinv2 & Hsm2).
    exists app2, fs2. simpl concat. rewrite length_app, Nat.add_assoc. done.
Qed.

(** *** The tree after the sort *)

Section Sorted.

Variables (app1 : App) (fs1 : FS) (n1 : nat).

Hypothesis sorted_inv : inv [] app1 fs1 n1.
Hypothesis sorted_smooth : smooth [] app1 fs1.

Lemma sorted_record new_path original :
  (new_path, original) ∈ undo_data app1 →
  new_path = dest original ∧ original ∈ files.
Proof.
  intros Hin. destruct sorted_smooth as (Hdest & _). split; [by apply Hdest|].
  by destruct (inv_record _ _ _ _ _ _ _ sorted_inv _ _ Hin).
Qed.

Lemma sorted_recorded f : f ∈ files → (dest f, f) ∈ undo_data app1.
Proof.
  intros Hf. destruct sorted_smooth as (Hdest & Hall & _).
  pose proof (Hall f Hf (not_elem_of_nil f)) as Hin.
  apply list_elem_of_fmap in Hin as ([np op] & -> & Hin). simpl.
  pose proof (Hdest _ _ Hin) as Heq. by subst np.
Qed.

Lemma sorted_file_gone f : f ∈ files → fs1 !! f = None.
Proof.
  intros Hf. pose proof (sorted_recorded f Hf) as Hin.
  inv_fields sorted_inv.
  assert (is_file fs1 f = false) as Hgone.
  { apply Imoved. by apply (list_elem_of_fmap_2 snd _ (dest f, f)). }
  destruct (fs1 !! f) as [[x|]|] eqn:Hy; [| |done].
  - unfold is_file in Hgone. by rewrite Hy in Hgone.
  - destruct (Idirs _ Hy) as [H0|(g & Hg & Heq)].
    + destruct (file_content f Hf) as [x Hx]. congruence.
    + by apply file_ne_folder in Heq.
Qed.

Lemma sorted_destination f : f ∈ files → fs1 !! dest f = fs0 !! f.
Proof.
  intros Hf. pose proof (sorted_recorded f Hf) as Hin.
  by destruct (inv_record _ _ _ _ _ _ _ sorted_inv _ _ Hin) as (_ & _ & ? & _).
Qed.

Lemma sorted_folder f : f ∈ files → fs1 !! folder f = Some Dir.
Proof.
  intros Hf. destruct sorted_smooth as (_ & _ & Hdirs).
  apply is_dir_spec, Hdirs; [done|apply not_elem_of_nil].
Qed.

Lemma sorted_other p :
  p ∉ files → (∀ f, f ∈ files → p ≠ dest f ∧ p ≠ folder f) →
  fs1 !! p = fs0 !! p.
Proof.
  intros Hp Hne. inv_fields sorted_inv.
  destruct (fs0 !! p) as [y|] eqn:H0; [by apply Ipersist|].
  destruct (fs1 !! p) as [[x|]|] eqn:Hy; [| |done].
  - destruct (Ifiles _ _ Hy) as [?|(op & Hin & _)]; [congruence|].
    apply sorted_record in Hin as [-> Hop]. by destruct (Hne op Hop).
  - destruct (Idirs _ Hy) as [?|(g & Hg & ->)]; [congruence|].
    by destruct (Hne g Hg).
Qed.

Lemma sorted_selected : fs1 !! selected = Some Dir.
Proof. apply is_dir_spec. by destruct sorted_inv. Qed.

(** *** The first loop of the undo *)

Lemma undo_loop_smooth total app log :
  (∀ new_path original,
     (new_path, original) ∈ log →
     new_path = dest original ∧ original ∈ files) →
  NoDup log.*2 →
  (∀ f, f ∈ log.*2 →
     tree_of (undo_loop os total (app, fs1, []) log) !! f = fs0 !! f ∧
     tree_of (undo_loop os total (app, fs1, []) log) !! dest f = None) ∧
  (∀ p, (∀ f, f ∈ log.*2 → p ≠ f ∧ p ≠ dest f) →
     tree_of (undo_loop os total (app, fs1, []) log) !! p = fs1 !! p) ∧
  (∀ d, d ∈ (undo_loop os total (app, fs1, []) log).2 ↔
        ∃ f, f ∈ log.*2 ∧ d = folder f).
Proof.
  unfold undo_loop.
  induction log as [|[np op] log IH] using rev_ind; intros Hrec Hnd.
  - unfold tree_of. simpl. split; [by intros f ?%elem_of_nil|].
    split; [done|]. intros d. split; [by intros ?%elem_of_nil|].
    by intros (f & ?%elem_of_nil & _).
  - rewrite fmap_app in Hnd. apply NoDup_app in Hnd as (Hnd & Hfresh & _).
    destruct IH as (Hdone & Hrest & Hdirs); [|done|].
    { intros ???. apply Hrec, elem_of_app. by left. }
    destruct (Hrec np op) as [-> Hop].
    { apply elem_of_app. right. by left. }
    assert (op ∉ log.*2) as Hnew.
    { intros Hin. apply (Hfresh op Hin). by left. }
    assert (∀ f, f ∈ log.*2 → f ∈ files) as Hlog.
    { intros f ([np' op'] & -> & Hin)%list_elem_of_fmap.
      apply (Hrec np' op'), elem_of_app. by left. }
    rewrite foldl_snoc.
    destruct (foldl (undo_move os total) (app, fs1, []) log)
      as [[appc fsc] dirs] eqn:Hstate.
    unfold tree_of in Hdone, Hrest. simpl in Hdone, Hrest, Hdirs.
    destruct (file_content op Hop) as [x Hx].
    assert (fsc !! dest op = Some (File x)) as Hsrc.
    { rewrite Hrest, sorted_destination; [done..|].
      intros f Hf. split.
      - apply destination_ne_child. by apply file_parent, Hlog.
      - intros Heq. apply destination_inj in Heq;
          [congruence|by apply file_parent|by apply file_parent, Hlog
          |by apply file_ne_nil|by apply file_ne_nil, Hlog]. }
    assert (fsc !! op = None) as Hdst.
    { rewrite Hrest, sorted_file_gone; [done..|].
      intros f Hf. split; [congruence|]. intros Heq. symmetry in Heq.
      revert Heq. apply destination_ne_child. by apply file_parent. }
    assert (is_dir fsc (parent op) = true) as Hpar.
    { rewrite file_parent by done. apply is_dir_spec.
      rewrite Hrest; [apply sorted_selected|].
      intros f Hf. apply Hlog in Hf. split.
      - intros Heq. destruct (file_content f Hf) as [z Hz].
        pose proof selected_dir as Hsd. apply is_dir_spec in Hsd. congruence.
      - intros Heq. pose proof selected_dir as Hsd. apply is_dir_spec in Hsd.
        unfold dest, destination in Heq. fold (folder f) in Heq.
        rewrite Heq, below_folder_absent in Hsd by done. done. }
    unfold undo_move.
    assert (path_exists fsc (dest op) = true) as ->
      by (apply path_exists_spec; by eexists).
    rewrite (shutil_move_permitted fsc (dest op) op x Hsrc Hdst Hpar).
    unfold tree_of. simpl. rewrite fmap_app. simpl.
    split; [|split].
    + intros f [Hf| ->%list_elem_of_singleton]%elem_of_app.
      * destruct (Hdone f Hf) as [H1 H2].
        assert (f ≠ op) by congruence.
        assert (f ∈ files) as Hff by (by apply Hlog).
        assert (dest op ≠ f) as Hn1
          by (apply destination_ne_child; by apply file_parent).
        assert (op ≠ dest f) as Hn2
          by (apply not_eq_sym, destination_ne_child; by apply file_parent).
        assert (dest op ≠ dest f) as Hn3.
        { intros Heq. apply destination_inj in Heq;
            [congruence|by apply file_parent|by apply file_parent
            |by apply file_ne_nil|by apply file_ne_nil]. }
        split.
        -- rewrite lookup_insert_ne by congruence.
           by rewrite lookup_delete_ne.
        -- rewrite lookup_insert_ne by done. by rewrite lookup_delete_ne.
      * rewrite lookup_insert_eq. split; [done|].
        rewrite lookup_insert_ne, lookup_delete_eq; [done|].
        apply not_eq_sym, destination_ne_child. by apply file_parent.
    + intros p Hp.
      destruct (Hp op) as [Hp1 Hp2]; [apply elem_of_app; right; by left|].
      rewrite lookup_insert_ne, lookup_delete_ne by done.
      apply Hrest. intros f Hf. apply Hp, elem_of_app. by left.
    + intros d. unfold dest. rewrite destination_parent. fold (folder op).
      unfold set_add. destruct (decide (folder op ∈ dirs)) as [Hin|Hout].
      * rewrite Hdirs. split.
        -- intros (f & Hf & ->). exists f. split; [|done].
           apply elem_of_app. by left.
        -- intros (f & [Hf| ->%list_elem_of_singleton]%elem_of_app & ->).
           ++ by exists f.
           ++ by apply Hdirs.
      * rewrite elem_of_app, Hdirs, list_elem_of_singleton. split.
        -- intros [(f & Hf & ->)| ->].
           ++ exists f. split; [|done]. apply elem_of_app. by left.
           ++ exists op. split; [|done]. apply elem_of_app. right. by left.
        -- intros (f & [Hf| ->%list_elem_of_singleton]%elem_of_app & ->).
           ++ left. by exists f.
           ++ by right.
Qed.

(** *** The tree after the first loop of the undo *)

Lemma recorded_iff f : f ∈ (undo_data app1).*2 ↔ f ∈ files.
Proof.
  split.
  - intros ([np op] & -> & Hin)%list_elem_of_fmap.
    by apply sorted_record in Hin as [_ ?].
  - intros Hf. apply (list_elem_of_fmap_2 snd _ (dest f, f)).
    by apply sorted_recorded.
Qed.

Lemma moved_spec total app :
  (∀ f, f ∈ files →
     tree_of (undo_loop os total (app, fs1, []) (undo_data app1)) !! f
     = fs0 !! f ∧
     tree_of (undo_loop os total (app, fs1, []) (undo_data app1)) !! dest f
     = None) ∧
  (∀ p, p ∉ files → (∀ f, f ∈ files → p ≠ dest f) →
     tree_of (undo_loop os total (app, fs1, []) (undo_data app1)) !! p
     = fs1 !! p) ∧
  (∀ d, d ∈ (undo_loop os total (app, fs1, []) (undo_data app1)).2 ↔
        ∃ f, f ∈ files ∧ d = folder f).
Proof.
  destruct (undo_loop_smooth total app (undo_data app1))
    as (Hdone & Hrest & Hdirs).
  { apply sorted_record. }
  { by destruct sorted_inv. }
  split; [|split].
  - intros f Hf. by apply Hdone, recorded_iff.
  - intros p Hp Hne. apply Hrest. intros f Hf%recorded_iff.
    split; [congruence|by apply Hne].
  - intros d. rewrite Hdirs. split.
    + intros (f & Hf%recorded_iff & ->). by exists f.
    + intros (f & Hf%recorded_iff & ->). by exists f.
Qed.

Lemma moved_below_folder total app g x :
  g ∈ files →
  tree_of (undo_loop os total (app, fs1, []) (undo_data app1))
  !! join (folder g) x = None.
Proof.
  intros Hg. destruct (moved_spec total app) as (Hdone & Hrest & _).
  assert (∀ p, p ∉ dest <$> files → ∀ f, f ∈ files → p ≠ dest f) as Himage.
  { intros p Hp f Hf ->. apply Hp, list_elem_of_fmap. by exists f. }
  destruct (decide (join (folder g) x ∈ dest <$> files))
    as [(f & -> & Hf)%list_elem_of_fmap|Hout']; [by apply Hdone|].
  pose proof (Himage _ Hout') as Hnone.
  assert (join (folder g) x ∉ files) as Hout.
  { intros Hp%file_parent. rewrite parent_join in Hp.
    by apply join_ne_self in Hp. }
  rewrite Hrest; [|done|done].
  rewrite sorted_other; [by apply below_folder_absent|done|].
  intros f Hf. split; [by apply Hnone|].
  intros [Heq _]%join_inj. by apply join_ne_self in Heq.
Qed.

Lemma moved_folder total app g :
  g ∈ files →
  tree_of (undo_loop os total (app, fs1, []) (undo_data app1)) !! folder g
  = Some Dir.
Proof.
  intros Hg. destruct (moved_spec total app) as (_ & Hrest & _).
  rewrite Hrest; [by apply sorted_folder| |].
  - intros Hin. by apply (file_ne_folder _ g Hin).
  - intros f Hf Heq. symmetry in Heq. by apply destination_ne_category in Heq.
Qed.

(** *** The second loop of the undo *)

Lemma cleanup_smooth total app appc dirs :
  (∀ d, d ∈ dirs → ∃ g, g ∈ files ∧ d = folder g) →
  ∀ p,
    tree_of (remove_empty_dirs appc
               (tree_of (undo_loop os total (app, fs1, []) (undo_data app1)))
               dirs) !! p
    = if decide (p ∈ dirs) then None
      else tree_of (undo_loop os total (app, fs1, []) (undo_data app1)) !! p.
Proof.
  set (fs2 := tree_of (undo_loop os total (app, fs1, []) (undo_data app1))).
  unfold remove_empty_dirs.
  induction dirs as [|d dirs IH] using rev_ind; intros Hdirs p.
  - destruct (decide (p ∈ [])) as [?%elem_of_nil|]; done.
  - assert (∀ q, tree_of (foldl remove_if_empty (appc, fs2, 0) dirs) !! q
                 = if decide (q ∈ dirs) then None else fs2 !! q) as Hprev.
    { apply IH. intros q Hq. apply Hdirs, elem_of_app. by left. }
    clear IH. rewrite foldl_snoc.
    destruct (foldl remove_if_empty (appc, fs2, 0) dirs)
      as [[appd fsd] k] eqn:Hstate.
    unfold tree_of in Hprev. simpl in Hprev.
    destruct (Hdirs d) as (g & Hg & ->); [apply elem_of_app; right; by left|].
    assert (∀ q, (if decide (q ∈ dirs ++ [folder g]) then None
                  else fs2 !! q)
                 = if decide (q = folder g) then None else fsd !! q) as Hsame.
    { intros q. rewrite Hprev.
      destruct (decide (q = folder g)) as [->|Hne].
      - rewrite decide_True; [done|]. apply elem_of_app. right. by left.
      - destruct (decide (q ∈ dirs)) as [Hin|Hout].
        + rewrite decide_True; [done|]. apply elem_of_app. by left.
        + rewrite decide_False; [done|].
          intros [?| ->%list_elem_of_singleton]%elem_of_app; done. }
    rewrite Hsame. unfold remove_if_empty, tree_of.
    destruct (path_exists fsd (folder g)) eqn:He.
    + assert (fsd !! folder g = Some Dir) as Hd.
      { apply path_exists_spec in He as [y Hy]. rewrite Hprev in Hy.
        rewrite Hprev. destruct (decide (folder g ∈ dirs)); [done|].
        by apply moved_folder. }
      assert (children fsd (folder g) = []) as Hempty.
      { apply children_nil. intros q [x ->]%is_child_join. rewrite Hprev.
        destruct (decide _); [done|]. by apply moved_below_folder. }
      unfold rmdir, iterdir, is_dir. rewrite Hd, Hempty. simpl.
      destruct (decide (p = folder g)) as [->|Hne].
      * apply lookup_delete_eq.
      * by rewrite lookup_delete_ne.
    + simpl. destruct (decide (p = folder g)) as [->|Hne]; [|done].
      by apply path_exists_false.
Qed.

(** *** The whole undo *)

Lemma undo_restores :
  files ≠ [] → (undo_sort os app1 fs1).2 = fs0.
Proof.
  intros Hne.
  assert (undo_data app1 ≠ []) as Hlog.
  { destruct (non_empty_elem files Hne) as [f Hf].
    apply recorded_iff in Hf. intros Hnil. rewrite Hnil in Hf.
    by apply elem_of_nil in Hf. }
  rewrite (undo_sort_tree os app1 fs1 Hlog). unfold undo_moves.
  set (total := length (undo_data app1)).
  set (app := update_progress (0, total) app1).
  destruct (moved_spec total app) as (Hdone & Hrest & Hdirs).
  assert (∀ d, d ∈ set_order os
                     (undo_loop os total (app, fs1, []) (undo_data app1)).2 ↔
               ∃ g, g ∈ files ∧ d = folder g) as Horder.
  { intros d. rewrite order_permutes. apply Hdirs. }
  apply map_eq. intros p.
  rewrite (cleanup_smooth total app); [|by intros d Hd%Horder].
  destruct (decide _) as [(g & Hg & ->)%Horder|Hout].
  - symmetry. by apply folder_absent.
  - destruct (decide (p ∈ files)) as [Hf|Hnf]; [by apply Hdone|].
    destruct (decide (p ∈ dest <$> files))
      as [(f & -> & Hf)%list_elem_of_fmap|Hnd].
    + destruct (Hdone f Hf) as [_ ->]. symmetry.
      by apply below_folder_absent.
    + assert (∀ f, f ∈ files → p ≠ dest f) as Hnd'.
      { intros f Hf ->. apply Hnd, list_elem_of_fmap. by exists f. }
      rewrite Hrest; [|done|done].
      apply sorted_other; [done|]. intros f Hf. split; [by apply Hnd'|].
      intros ->. apply Hout, Horder. by exists f.
Qed.

End Sorted.
End RoundTrip.

Lemma filter_all {A} (P : A → Prop) `{∀ x, Decision (P x)} (l : list A) :
  Forall P l → filter P l = l.
Proof.
  induction 1 as [|x l Hx _ IH]; [done|].
  by rewrite filter_cons_True, IH.
Qed.

(** What holds before the first step of a sort. *)
Lemma sort_inv_start app fs selected files pending :
  selected_directory app = Some selected →
  is_dir fs selected = true →
  NoDup files → pending ≡ₚ files →
  sort_inv selected fs files pending (set_records empty_results [] app) fs 0.
Proof.
  intros Hsel Hdir Hnd Hperm. constructor; simpl; try done.
  - intros f Hf. by rewrite <-Hperm.
  - by rewrite Hperm.
  - intros ?? ?%elem_of_nil. done.
  - constructor.
  - constructor.
  - intros f ?%elem_of_nil. done.
  - by left.
  - by left.
  - by rewrite Hperm.
  - intros ?? ?%elem_of_nil. done.
Qed.

(** X7: the round trip where it holds.  In a well-formed tree, on a platform
    that refuses no move, let the selected directory hold regular files only,
    none of them named like the category of one of them.  Then the sort
    moves every file to its category folder under its own name, and the undo
    that follows gives back the very tree the sort started from, with an
    empty log. *)
Theorem sort_undo_restores os app fs entries selected :
  selected_directory app = Some selected →
  is_dir fs selected = true →
  listing fs selected entries →
  entries ≠ [] →
  Forall (λ f, is_file fs f = true) entries →
  (∀ f g, f ∈ entries → g ∈ entries →
          name f ≠ FileCategory.get_category g) →
  well_formed fs = true →
  (∀ src dst, permitted os src dst = true) →
  (∀ l, set_order os l ≡ₚ l) →
  ∃ app1 fs1,
    action_sort os app fs entries = Done (app1, fs1) ∧
    status app1 = SortingComplete (length entries) ∧
    (∀ f, f ∈ entries →
          fs1 !! f = None ∧ fs1 !! destination selected f = fs !! f) ∧
    (undo_sort os app1 fs1).2 = fs ∧
    undo_data (undo_sort os app1 fs1).1 = [].
Proof.
  intros Hsel Hdir Hlist Hne Hreg Hnames Hwf Hperm Horder.
  pose proof (filter_all _ entries Hreg) as Hfilter.
  assert (∀ f, f ∈ entries → is_file fs f = true) as Hreg'
    by (by apply Forall_forall).
  assert (∀ f, f ∈ entries → is_child selected f) as Hin.
  { intros f Hf. by apply (elem_of_listing _ _ _ _ Hlist) in Hf as [? _]. }
  assert (∀ p, is_child selected p → is_Some (fs !! p) → p ∈ entries) as Hall.
  { intros p Hc Hp. by apply (elem_of_listing _ _ _ _ Hlist). }
  assert (NoDup entries) as Hnd by (by eapply listing_NoDup).
  destruct (categorize_spec entries) as [Hgperm Hgroups].
  destruct (sort_categories_smooth os selected fs entries Hreg' Hin Hall
              Hnames Hwf Hperm (categorize entries)
              (set_records empty_results [] app) fs 0 Hgroups)
    as (app2 & fs2 & Hrun & Hinv & Hsm).
  { by apply sort_inv_start. }
  { split; [by intros ?? ?%elem_of_nil|].
    split; intros f Hf Hp; by rewrite Hgperm in Hp. }
  rewrite Hgperm in Hrun, Hinv. simpl in Hrun, Hinv.
  assert (length (undo_data app2) = length entries) as Hlen.
  { rewrite <-(length_fmap snd). apply Permutation_length.
    apply NoDup_Permutation; [by destruct Hinv|done|].
    intros f. by apply (recorded_iff selected fs entries app2 fs2 _ Hinv Hsm). }
  exists (update_status
            (SortingComplete (total_sorted (last_sort_results app2))) app2),
         fs2.
  split; [|split; [|split; [|split]]].
  - unfold action_sort. rewrite Hsel, Hdir, Hfilter. simpl.
    destruct entries as [|e0 l0] eqn:He; [done|]. rewrite <-He in *.
    by rewrite Hrun, bind_done.
  - simpl. f_equal. rewrite total_sorted_length, <-Hlen.
    rewrite (inv_results _ _ _ _ _ _ _ Hinv). by rewrite length_fmap.
  - intros f Hf. split.
    + by apply (sorted_file_gone selected fs entries Hreg' Hnames
                  app2 fs2 _ Hinv Hsm).
    + by apply (sorted_destination selected fs entries app2 fs2 _ Hinv Hsm).
  - apply (undo_restores os selected fs entries Hdir Hreg' Hin Hall Hnames Hwf
             Hperm Horder _ fs2 (length entries)); [|done|done].
    inv_fields Hinv. constructor; done.
  - apply undo_sort_log.
Qed.

Lemma sort_undo_restores_witness :
  (selected_directory app_box = Some box ∧
   is_dir scenario_tree box = true ∧
   listing scenario_tree box (children scenario_tree box) ∧
   children scenario_tree box ≠ [] ∧
   Forall (λ f, is_file scenario_tree f = true) (children scenario_tree box) ∧
   well_formed scenario_tree = true) ∧
  ∃ app1 fs1,
    action_sort plain app_box scenario_tree (children scenario_tree box)
    = Done (app1, fs1) ∧
    status app1 = SortingComplete 4 ∧
    (undo_sort plain app1 fs1).2 = scenario_tree.
Proof.
  assert (children scenario_tree box ≠ []) as Hne
    by (vm_compute; discriminate).
  assert (Forall (λ f, is_file scenario_tree f = true)
            (children scenario_tree box)) as Hreg.
  { apply Forall_forall. intros f Hf. vm_compute in Hf.
    repeat (apply elem_of_cons in Hf as [->|Hf]; [reflexivity|]).
    apply elem_of_nil in Hf. destruct Hf. }
  assert (∀ f g, f ∈ children scenario_tree box →
                 g ∈ children scenario_tree box →
                 name f ≠ FileCategory.get_category g) as Hnames.
  { intros f g Hf Hg. vm_compute in Hf, Hg.
    repeat (apply elem_of_cons in Hf as [->|Hf];
            [repeat (apply elem_of_cons in Hg as [->|Hg];
                     [vm_compute; discriminate|]);
             apply elem_of_nil in Hg; destruct Hg|]).
    apply elem_of_nil in Hf. destruct Hf. }
  split.
  { split; [reflexivity|]. split; [reflexivity|].
    split; [apply listing_children|]. split; [exact Hne|].
    split; [exact Hreg|reflexivity]. }
  destruct (sort_undo_restores plain app_box scenario_tree
              (children scenario_tree box) box eq_refl eq_refl
              (listing_children _ _) Hne Hreg Hnames eq_refl
              (λ _ _, eq_refl) (λ l, reflexivity l))
    as (app1 & fs1 & Hrun & Hstatus & _ & Hback & _).
  exists app1, fs1. split; [exact Hrun|]. split; [exact Hstatus|exact Hback].
Defined.

(** ** The names the conflict loop makes *)

Lemma dotless_app a b :
  Str.dotless (a +:+ b) = Str.dotless a && Str.dotless b.
Proof.
  induction a as [|c a IH]; [done|]. rewrite append_cons. simpl.
  by rewrite IH, andb_assoc.
Qed.

Lemma is_dot_digit x : Str.is_dot (pretty_N_char x) = false.
Proof. unfold pretty_N_char. by repeat case_match. Qed.

Lemma dotless_pretty_N_go x s :
  Str.dotless s = true → Str.dotless (pretty_N_go x s) = true.
Proof.
  revert s. induction (N.lt_wf_0 x) as [x _ IH]; intros s Hs.
  destruct (decide (x = 0)%N) as [->|Hx]; [by rewrite pretty_N_go_0|].
  rewrite pretty_N_go_step by lia. apply IH.
  - apply N.div_lt; lia.
  - simpl. by rewrite is_dot_digit.
Qed.

Lemma dotless_pretty (k : nat) : Str.dotless (pretty k) = true.
Proof.
  unfold pretty, pretty_nat, pretty, pretty_N.
  destruct (decide _); [done|]. by apply dotless_pretty_N_go.
Qed.

Lemma rfind_dot_None s : Str.rfind_dot s = None → Str.dotless s = true.
Proof.
  induction s as [|c s IH]; [done|]. simpl.
  destruct (Str.rfind_dot s); [done|].
  destruct (Str.is_dot c); [done|]. intros _. by rewrite IH.
Qed.

Lemma rfind_dot_Some s i :
  Str.rfind_dot s = Some i →
  ∃ r, Str.drop i s = String "." r ∧ Str.dotless r = true ∧
       String.length s = i + 1 + String.length r.
Proof.
  revert i. induction s as [|c s IH]; intros i; [done|]. simpl.
  destruct (Str.rfind_dot s) as [j|] eqn:Hj.
  - intros [= <-]. destruct (IH j eq_refl) as (r & Hr & Hd & Hlen).
    exists r. simpl. split; [done|]. split; [done|]. lia.
  - destruct (Str.is_dot c) eqn:Hc; [|done]. intros [= <-].
    apply is_dot_spec in Hc as ->. exists s. simpl.
    split; [done|]. split; [by apply rfind_dot_None|]. lia.
Qed.

Lemma split_at_Some n i :
  Str.split_at n = Some i →
  0 < i ∧ Str.ext_shape (Str.drop i n) = true.
Proof.
  unfold Str.split_at. destruct (Str.rfind_dot n) as [j|] eqn:Hj; [|done].
  destruct ((0 <? j) && (j <? String.length n - 1)) eqn:Hb; [|done].
  intros [= <-]. apply andb_prop in Hb as [H0%Nat.ltb_lt H1%Nat.ltb_lt].
  destruct (rfind_dot_Some n j Hj) as (r & -> & Hd & Hlen).
  split; [done|]. destruct r as [|d r]; [simpl in Hlen; lia|].
  simpl in *. done.
Qed.

Lemma append_ne_nil a c b : a +:+ String c b ≠ "".
Proof. by destruct a. Qed.

Lemma drop_app_le i a b :
  i ≤ String.length a → Str.drop i (a +:+ b) = Str.drop i a +:+ b.
Proof.
  revert a. induction i as [|i IH]; intros [|c a] Hi; try done.
  - simpl in Hi. lia.
  - rewrite append_cons. simpl. apply IH. simpl in Hi. lia.
Qed.

Lemma append_nil_r s : s +:+ "" = s.
Proof. induction s as [|c s IH]; [done|]. by rewrite append_cons, IH. Qed.

Lemma table_no_underscore :
  Forall (λ entry : string * list string,
            Forall (λ e, ∀ c r, e ≠ String c (String "_" r)) entry.2)
         FileCategory.CATEGORIES.
Proof.
  repeat (constructor;
          [repeat (constructor; [intros c r; discriminate|]); constructor|]).
  constructor.
Qed.

Lemma lookup_category_underscore c r :
  FileCategory.lookup_category FileCategory.CATEGORIES
    (String c (String "_" r)) = "Others".
Proof.
  apply first_match_lookup_category. right. split; [done|].
  eapply Forall_impl; [apply table_no_underscore|].
  intros entry Hentry Hin. simpl in Hentry.
  rewrite Forall_forall in Hentry. by apply (Hentry _ Hin c r).
Qed.

(** The suffix of a name that pathlib does not split, once the conflict
    loop has added its counter, lowers to nothing the table holds. *)
Lemma unsplit_suffix_other n t :
  Str.split_at n = None → Str.dotless t = true →
  FileCategory.lookup_category FileCategory.CATEGORIES
    (Str.lower (Str.suffix (n +:+ String "_" t))) = "Others".
Proof.
  intros Hn Ht. unfold Str.suffix, Str.split_at in *.
  rewrite rfind_dot_app, string_length_app.
  assert (Str.rfind_dot (String "_" t) = None) as ->
    by (by apply rfind_dot_dotless).
  destruct (Str.rfind_dot n) as [j|] eqn:Hj; [|done].
  destruct (rfind_dot_Some n j Hj) as (r & Hr & Hd & Hlen).
  destruct ((0 <? j) && (j <? String.length n - 1)) eqn:Hb; [done|].
  destruct ((0 <? j) && (j <? String.length n + String.length (String "_" t) - 1))
    eqn:Hb'; [|done].
  apply andb_prop in Hb' as [H0 H1]. rewrite H0 in Hb. simpl in Hb.
  apply Nat.ltb_ge in Hb.
  assert (r = "") as -> by (destruct r; [done|simpl in Hlen; lia]).
  rewrite drop_app_le by lia. rewrite Hr.
  rewrite append_cons, append_nil.
  change (Str.lower (String "." (String "_" t)))
    with (String "." (String "_" (Str.lower t))).
  apply lookup_category_underscore.
Qed.

(** Whatever counter the conflict loop comes to, the name it makes belongs
    to the category of the file it stands for. *)
Lemma candidate_keeps_category category_dir file_path counter :
  FileCategory.get_category (candidate category_dir file_path counter)
  = FileCategory.get_category file_path.
Proof.
  unfold FileCategory.get_category, candidate, path_suffix, path_stem.
  rewrite name_join. set (n := name file_path).
  unfold Str.stem at 1, Str.suffix at 2 3.
  destruct (Str.split_at n) as [i|] eqn:Hn.
  - destruct (split_at_Some n i Hn) as [_ Hshape].
    rewrite suffix_ext; [done| |done]. apply append_ne_nil.
  - rewrite append_nil_r.
    change ("_" +:+ pretty counter) with (String "_" (pretty counter)).
    rewrite (unsplit_suffix_other n (pretty counter) Hn (dotless_pretty _)).
    reflexivity.
Qed.

Lemma get_category_name_only p q :
  name p = name q → FileCategory.get_category p = FileCategory.get_category q.
Proof.
  intros Heq. unfold FileCategory.get_category, path_suffix. by rewrite Heq.
Qed.

(** X8: the destination the conflict loop settles on lies in the category
    folder and its name, renamed or not, belongs to the category of the file
    it is chosen for: no file lands in a folder where its new name would not
    be put. *)
Theorem destination_keeps_category fs category_dir file_path new_path :
  resolve_destination fs category_dir file_path = Some new_path →
  parent new_path = category_dir ∧
  FileCategory.get_category new_path = FileCategory.get_category file_path.
Proof.
  intros Hres.
  destruct (resolve_destination_spec fs category_dir file_path)
    as (p & Hp & _ & Hwhich).
  rewrite Hres in Hp. injection Hp as <-.
  destruct Hwhich as [->|(_ & k & _ & -> & _)].
  - split; [apply parent_join|]. apply get_category_name_only, name_join.
  - split; [apply parent_join|]. apply candidate_keeps_category.
Qed.

Lemma destination_keeps_category_witness :
  resolve_destination report_tree (box ++ ["Documents"]) (box ++ ["report.pdf"])
  = Some (box ++ ["Documents"; "report_1.pdf"]) ∧
  FileCategory.get_category (box ++ ["Documents"; "report_1.pdf"])
  = FileCategory.get_category (box ++ ["report.pdf"]).
Proof.
  assert (resolve_destination report_tree (box ++ ["Documents"])
            (box ++ ["report.pdf"])
          = Some (box ++ ["Documents"; "report_1.pdf"])) as Hres
    by (vm_compute; reflexivity).
  split; [exact Hres|].
  exact (proj2 (destination_keeps_category _ _ _ _ Hres)).
Defined.

(** ** Every record gets its turn *)

Lemma undo_move_progress os total st record :
  progress (undo_move os total st record).1.1 = (S (progress st.1.1).1, total).
Proof.
  destruct st as [[app fs] dirs], record as [np op]. unfold undo_move.
  destruct (path_exists fs np); [|done].
  by destruct (shutil_move os fs np op).
Qed.

Lemma undo_loop_progress os total st log :
  log ≠ [] →
  progress (undo_loop os total st log).1.1
  = ((progress st.1.1).1 + length log, total).
Proof.
  unfold undo_loop. induction log as [|r log IH] using rev_ind; [done|].
  intros _. rewrite foldl_snoc, undo_move_progress, length_app. simpl.
  f_equal. destruct log as [|r' log'].
  - simpl. lia.
  - rewrite IH by done. simpl. lia.
Qed.

Lemma remove_if_empty_progress st d :
  progress (remove_if_empty st d).1.1 = progress st.1.1.
Proof.
  destruct st as [[app fs] n]. unfold remove_if_empty.
  destruct (path_exists fs d); [|done].
  destruct (iterdir fs d) as [[|]|]; [|done..].
  by destruct (rmdir fs d).
Qed.

Lemma remove_empty_dirs_progress app fs dirs :
  progress (remove_empty_dirs app fs dirs).1.1 = progress app.
Proof.
  unfold remove_empty_dirs. induction dirs as [|d dirs IH] using rev_ind;
    [done|].
  by rewrite foldl_snoc, remove_if_empty_progress.
Qed.

(** X9: an undo with records to reverse gives every record its turn,
    whether its reversal succeeds, fails or is skipped: the progress it
    reports ends at the number of records out of that number. *)
Theorem undo_attempts_all os app fs :
  undo_data app ≠ [] →
  progress (undo_sort os app fs).1
  = (length (undo_data app), length (undo_data app)).
Proof.
  intros Hlog. unfold undo_sort.
  destruct (undo_data app) as [|record log] eqn:Hdata; [done|].
  pose proof (undo_loop_progress os (length (undo_data app))
                (update_progress (0, length (undo_data app)) app, fs, [])
                (undo_data app)) as Hloop.
  fold (undo_moves os app fs) in Hloop.
  rewrite Hdata in Hloop. specialize (Hloop ltac:(done)).
  destruct (undo_moves os app fs) as [[app1 fs1] dirs].
  pose proof (remove_empty_dirs_progress app1 fs1 (set_order os dirs)) as Hrm.
  destruct (remove_empty_dirs app1 fs1 (set_order os dirs))
    as [[app2 fs2] removed].
  simpl in *. by rewrite Hrm, Hloop.
Qed.

Lemma undo_attempts_all_witness :
  undo_data (sorted plain app_box report_tree (children report_tree box)).1
  ≠ [] ∧
  progress
    (undo_sort locked
       (sorted plain app_box report_tree (children report_tree box)).1
       (sorted plain app_box report_tree (children report_tree box)).2).1
  = (1, 1).
Proof.
  assert (undo_data (sorted plain app_box report_tree
                       (children report_tree box)).1 ≠ [])
    as Hlog by (vm_compute; discriminate).
  split; [exact Hlog|].
  exact (undo_attempts_all locked _ _ Hlog).
Defined.

(** ** The tree stays a tree *)

Lemma well_formed_intro fs :
  (∀ p, is_Some (fs !! p) → p = [] ∨ is_dir fs (parent p) = true) →
  well_formed fs = true.
Proof.
  intros Hall. unfold well_formed. apply forallb_forall.
  intros p ([q y] & -> & Hin%elem_of_map_to_list)%list_elem_of_In%list_elem_of_fmap.
  simpl. destruct (Hall q) as [->|Hdir]; [by eexists|done|].
  rewrite Hdir. apply orb_true_r.
Qed.


(** A regular file that goes to a path that is not a directory, in a
    directory, leaves a tree. *)
Lemma well_formed_move fs src dst x :
  well_formed fs = true →
  fs !! src = Some (File x) → is_dir fs dst = false →
  is_dir fs (parent dst) = true →
  well_formed (<[dst := File x]> (delete src fs)) = true.
Proof.
  intros Hwf Hsrc Hdst Hpar. apply is_dir_spec in Hpar.
  apply well_formed_intro. intros q [y Hq].
  assert (∀ d, fs !! d = Some Dir →
               is_dir (<[dst := File x]> (delete src fs)) d = true) as Hkeep.
  { intros d Hd. apply is_dir_spec.
    rewrite lookup_insert_ne.
    - rewrite lookup_delete_ne; [done|congruence].
    - intros ->. apply is_dir_spec in Hd. congruence. }
  destruct (decide (q = dst)) as [->|Hne].
  - right. by apply Hkeep.
  - rewrite lookup_insert_ne in Hq by done.
    destruct (decide (q = src)) as [->|Hne'].
    { by rewrite lookup_delete_eq in Hq. }
    rewrite lookup_delete_ne in Hq by done.
    destruct (well_formed_spec fs Hwf q) as [?|Hd]; [by eexists|by left|].
    right. by apply Hkeep, is_dir_spec.
Qed.

Lemma well_formed_rmdir fs d fs' :
  well_formed fs = true → rmdir fs d = Some fs' → well_formed fs' = true.
Proof.
  intros Hwf Hrm. unfold rmdir, iterdir in Hrm.
  destruct (is_dir fs d) eqn:Hd; [|done].
  destruct (children fs d) as [|c l] eqn:Hc; [|done]. injection Hrm as <-.
  apply well_formed_intro. intros q [y Hq].
  destruct (decide (q = d)) as [->|Hne]; [by rewrite lookup_delete_eq in Hq|].
  rewrite lookup_delete_ne in Hq by done.
  destruct (well_formed_spec fs Hwf q) as [?|Hpar]; [by eexists|by left|].
  right. apply is_dir_spec. apply is_dir_spec in Hpar.
  rewrite lookup_delete_ne; [done|]. intros Heq.
  assert (q ∈ children fs d) as Hin.
  { apply elem_of_children. split; [|by eexists]. split; [|done].
    intros ->. simpl in Heq. subst d. congruence. }
  rewrite Hc in Hin. by apply elem_of_nil in Hin.
Qed.

Section TreeMoves.

Variable os : Platform.

(** [shutil.move] of a regular file leaves a tree. *)
Lemma well_formed_shutil_move fs src dst fs' :
  well_formed fs = true → is_file fs src = true →
  shutil_move os fs src dst = Some fs' → well_formed fs' = true.
Proof.
  intros Hwf [x Hsrc]%is_file_spec. unfold shutil_move.
  assert (∀ target, rename os fs src target = Some fs' →
                    well_formed fs' = true) as Hrename.
  { intros target. unfold rename.
    destruct (negb (permitted os src target)); [done|]. rewrite Hsrc.
    destruct (is_dir fs (parent target)) eqn:Hpar; [|done].
    destruct (is_dir fs target) eqn:Htarget; [done|]. simpl.
    intros [= <-]. by apply well_formed_move. }
  destruct (is_dir fs dst) eqn:Hdst; [|apply Hrename].
  destruct (decide (src = dst)) as [->|Hne]; [congruence|].
  destruct (path_exists fs (join dst (name src))); [done|apply Hrename].
Qed.

(** [shutil.move] of a regular file makes no directory. *)
Lemma shutil_move_no_new_dir fs src dst fs' q :
  is_file fs src = true → shutil_move os fs src dst = Some fs' →
  is_dir fs' q = true → is_dir fs q = true.
Proof.
  intros [x Hsrc]%is_file_spec. unfold shutil_move.
  assert (∀ target, rename os fs src target = Some fs' →
                    is_dir fs' q = true → is_dir fs q = true) as Hrename.
  { intros target. unfold rename.
    destruct (negb (permitted os src target)); [done|]. rewrite Hsrc.
    destruct (is_dir fs (parent target) && negb (is_dir fs target)); [|done].
    intros [= <-] Hq%is_dir_spec. apply is_dir_spec.
    destruct (decide (q = target)) as [->|Hne].
    { by rewrite lookup_insert_eq in Hq. }
    rewrite lookup_insert_ne in Hq by done.
    destruct (decide (q = src)) as [->|Hne'].
    { by rewrite lookup_delete_eq in Hq. }
    by rewrite lookup_delete_ne in Hq. }
  destruct (is_dir fs dst) eqn:Hdst; [|apply Hrename].
  destruct (decide (src = dst)) as [->|Hne]; [congruence|].
  destruct (path_exists fs (join dst (name src))); [done|apply Hrename].
Qed.


Section SortTree.

Variables (selected : path) (fs0 : FS) (files : list path).

Hypothesis files_regular : ∀ f, f ∈ files → is_file fs0 f = true.
Hypothesis files_inside : ∀ f, f ∈ files → parent f = selected.

Let inv := sort_inv selected fs0 files.




End SortTree.

(** One record of an undo whose destination is no directory leaves a tree
    and makes no directory. *)
Lemma undo_move_well_formed total app fs dirs new_path original :
  well_formed fs = true → is_dir fs new_path = false →
  well_formed (tree_of (undo_move os total (app, fs, dirs)
                          (new_path, original))) = true ∧
  ∀ q, is_dir (tree_of (undo_move os total (app, fs, dirs)
                          (new_path, original))) q = true →
       is_dir fs q = true.
Proof.
  intros Hwf Hnd. unfold undo_move, tree_of.
  destruct (path_exists fs new_path) eqn:He; [|done].
  assert (is_file fs new_path = true) as Hfile.
  { apply path_exists_spec in He as [[x|] Hy].
    - apply is_file_spec. by eexists.
    - apply is_dir_spec in Hy. congruence. }
  destruct (shutil_move os fs new_path original) as [fs'|] eqn:Hmove;
    [|done].
  simpl. split.
  - by apply (well_formed_shutil_move fs new_path original).
  - intros q. by apply (shutil_move_no_new_dir fs new_path original).
Qed.

Lemma undo_loop_well_formed total app fs dirs log :
  well_formed fs = true →
  (∀ new_path original,
     (new_path, original) ∈ log → is_dir fs new_path = false) →
  well_formed (tree_of (undo_loop os total (app, fs, dirs) log)) = true.
Proof.
  unfold undo_loop. revert app fs dirs.
  induction log as [|[np op] log IH]; intros app fs dirs Hwf Hlog; [done|].
  change (foldl (undo_move os total) (app, fs, dirs) ((np, op) :: log))
    with (foldl (undo_move os total)
            (undo_move os total (app, fs, dirs) (np, op)) log).
  destruct (undo_move_well_formed total app fs dirs np op Hwf)
    as [Hwf1 Hdirs]; [apply (Hlog np op); by left|].
  destruct (undo_move os total (app, fs, dirs) (np, op))
    as [[app1 fs1] dirs1].
  apply IH; [exact Hwf1|]. intros np' op' Hin.
  destruct (is_dir fs1 np') eqn:Hd; [|done].
  apply Hdirs in Hd. rewrite (Hlog np' op') in Hd; [done|by right].
Qed.

End TreeMoves.

Lemma remove_empty_dirs_well_formed app fs dirs :
  well_formed fs = true →
  well_formed (tree_of (remove_empty_dirs app fs dirs)) = true.
Proof.
  unfold remove_empty_dirs. intros Hwf.
  induction dirs as [|d dirs IH] using rev_ind; [done|].
  rewrite foldl_snoc.
  destruct (remove_if_empty_tree (foldl remove_if_empty (app, fs, 0) dirs) d)
    as [->|(-> & Hdir & Hempty)]; [done|].
  apply (well_formed_rmdir
           (tree_of (foldl remove_if_empty (app, fs, 0) dirs)) d); [done|].
  unfold rmdir, iterdir. by rewrite Hdir, Hempty.
Qed.

Lemma undo_sort_well_formed os app fs :
  well_formed fs = true →
  (∀ new_path original,
     (new_path, original) ∈ undo_data app → is_dir fs new_path = false) →
  well_formed (undo_sort os app fs).2 = true.
Proof.
  intros Hwf Hlog.
  destruct (undo_data app) as [|record log] eqn:Hdata.
  - by rewrite undo_sort_nothing.
  - rewrite undo_sort_tree by (by rewrite Hdata).
    apply remove_empty_dirs_well_formed. unfold undo_moves.
    apply undo_loop_well_formed; [done|]. by rewrite Hdata.
Qed.

(** X11: an undo leaves a well-formed tree well-formed, provided no
    destination in its log is a directory. *)
Theorem undo_keeps_tree os app fs :
  well_formed fs = true →
  (∀ new_path original,
     (new_path, original) ∈ undo_data app → is_dir fs new_path = false) →
  well_formed (undo_sort os app fs).2 = true.
Proof. apply undo_sort_well_formed. Qed.



Lemma undo_keeps_tree_witness :
  (well_formed
     (sorted plain app_box report_tree (children report_tree box)).2 = true ∧
   ∀ new_path original,
     (new_path, original)
     ∈ undo_data (sorted plain app_box report_tree
                    (children report_tree box)).1 →
     is_dir (sorted plain app_box report_tree (children report_tree box)).2
       new_path = false) ∧
  well_formed
    (undo_sort locked
       (sorted plain app_box report_tree (children report_tree box)).1
       (sorted plain app_box report_tree (children report_tree box)).2).2
  = true.
Proof.
  assert (well_formed
            (sorted plain app_box report_tree (children report_tree box)).2
          = true) as Hwf by (vm_compute; reflexivity).
  assert (∀ new_path original,
            (new_path, original)
            ∈ undo_data (sorted plain app_box report_tree
                           (children report_tree box)).1 →
            is_dir (sorted plain app_box report_tree
                      (children report_tree box)).2 new_path = false)
    as Hlog.
  { intros np op Hin. vm_compute in Hin.
    apply elem_of_cons in Hin as [Heq|Hin].
    - injection Heq as -> ->. vm_compute. reflexivity.
    - apply elem_of_nil in Hin. destruct Hin. }
  split; [split; [exact Hwf|exact Hlog]|].
  exact (undo_keeps_tree locked _ _ Hwf Hlog).
Defined.
